(** * AIOPS-ZABBIX: the deduplication, enrichment and recovery pipeline

    A shallow embedding of [app/main.py]: the global state
    ([processing_events], [handled_events], [ai_memory_cache]), the
    pipeline ([process_queue], [run_ai_pipeline], [analyze_with_ai]), the
    snapshot builder ([format_dashboard]) and the WebSocket manager
    ([ConnectionManager]), followed by the properties of the
    specification that concern them. *)

From Stdlib Require Import NArith String Ascii.
From stdpp Require Import gmap list fin_maps.

Open Scope N_scope.
Open Scope list_scope.

(** ** Python strings

    A Python [str] is a sequence of Unicode code points.  The pipeline
    only tests characters for equality and for being whitespace, so a
    string is a list of code points. *)

Abbreviation str := (list N).

(** An ASCII literal of the source as a list of code points. *)
Definition py (s : string) : str :=
  (fun a => N_of_ascii a) <$> list_ascii_of_string s.

Module Str.

(** [s.startswith(p)]. *)
Fixpoint startswith (p s : str) : bool :=
  match p, s with
  | [], _ => true
  | _ :: _, [] => false
  | a :: p', b :: s' => (a =? b) && startswith p' s'
  end.

(** [sub in s] for strings. *)
Fixpoint contains (sub s : str) : bool :=
  startswith sub s ||
  match s with
  | [] => false
  | _ :: s' => contains sub s'
  end.

(** [s.split(sep)] for a non-empty [sep]: the text is scanned from the
    left; at each occurrence of [sep] the current part is closed and the
    scan resumes after the occurrence.  [skip] counts the characters of
    a matched separator that are still to be passed over, [cur] is the
    current part, reversed. *)
Fixpoint split_go (sep s : str) (skip : nat) (cur : str) : list str :=
  match s with
  | [] => [rev cur]
  | c :: s' =>
      match skip with
      | S k => split_go sep s' k cur
      | O =>
          if startswith sep s
          then rev cur :: split_go sep s' (length sep - 1) []
          else split_go sep s' 0 (c :: cur)
      end
  end.

Definition split (sep s : str) : list str := split_go sep s 0 [].

(** [s.replace(old, new)] for a non-empty [old]: every occurrence found
    by a left-to-right scan without overlaps is replaced. *)
Fixpoint replace_go (old new s : str) (skip : nat) : str :=
  match s with
  | [] => []
  | c :: s' =>
      match skip with
      | S k => replace_go old new s' k
      | O =>
          if startswith old s
          then new ++ replace_go old new s' (length old - 1)
          else c :: replace_go old new s' 0
      end
  end.

Definition replace (old new s : str) : str := replace_go old new s 0.

(** [c.isspace()]: the code points CPython treats as whitespace. *)
Definition isspace (c : N) : bool :=
  ((9 <=? c) && (c <=? 13)) || ((28 <=? c) && (c <=? 32))
  || (c =? 133) || (c =? 160) || (c =? 5760)
  || ((8192 <=? c) && (c <=? 8202))
  || (c =? 8232) || (c =? 8233) || (c =? 8239) || (c =? 8287)
  || (c =? 12288).

Fixpoint lstrip (s : str) : str :=
  match s with
  | [] => []
  | c :: s' => if isspace c then lstrip s' else s
  end.

Fixpoint rstrip (s : str) : str :=
  match s with
  | [] => []
  | c :: s' =>
      match rstrip s' with
      | [] => if isspace c then [] else [c]
      | r => c :: r
      end
  end.

(** [s.strip()]. *)
Definition strip (s : str) : str := rstrip (lstrip s).

End Str.

(** ** Data received from the monitoring backend

    The triggers are decoded JSON objects.  A key that the source reads
    with [d[k]] raises [KeyError] when it is missing and a key read with
    [d.get(k, default)] does not, so every field is optional here; a
    field that is present has the JSON type the backend documents,
    except ['lastEvent'], which may hold a value that is no object, such
    as the empty list of a trigger without event. *)

Record tag := { tag_tag : option str; tag_value : option str }.
Record host := { host_name : option str }.
Record ack := { ack_message : option str }.
Record event := { eventid : option str; acknowledges : option (list ack) }.

(** The value under ['lastEvent']: an object, or a value that is no
    object and has no [get]. *)
Inductive last_event :=
  | EventObject (ev : event)
  | NotAnObject.
Record trigger := {
  triggerid : option str;
  description : option str;
  priority : option str;
  lastchange : option str;
  hosts : option (list host);
  lastEvent : option last_event;
  tags : option (list tag)
}.

(** ** Exceptions *)

Inductive exn := KeyError | IndexError | AttributeError | ValueError.

Inductive res (A : Type) :=
  | Ok (a : A)
  | Raise (e : exn).
Arguments Ok {A} a.
Arguments Raise {A} e.

Global Instance res_bind : MBind res := fun A B k r =>
  match r with
  | Ok a => k a
  | Raise e => Raise e
  end.

(** [d[k]] on a decoded object. *)
Definition getitem {A} (f : option A) : res A :=
  match f with
  | Some a => Ok a
  | None => Raise KeyError
  end.

(** [l[0]]. *)
Definition first_item {A} (l : list A) : res A :=
  match l with
  | a :: _ => Ok a
  | [] => Raise IndexError
  end.

(** Truth value of a string: the empty string is false. *)
Definition truthy (s : str) : bool :=
  match s with
  | [] => false
  | _ :: _ => true
  end.

(** ** Global state *)

(** A value of [ai_memory_cache]: [{"summary": ..., "action": ...}]. *)
Record result := { summary : str; action : str }.

Record state := {
  processing_events : gset str;
  handled_events : gset str;
  ai_memory_cache : gmap str result;
  total_tokens_used : N
}.

Definition initial_state : state :=
  {| processing_events := ∅; handled_events := ∅;
     ai_memory_cache := ∅; total_tokens_used := 0 |}.

Definition set_processing (f : gset str -> gset str) (st : state) : state :=
  {| processing_events := f (processing_events st);
     handled_events := handled_events st;
     ai_memory_cache := ai_memory_cache st;
     total_tokens_used := total_tokens_used st |}.

Definition set_handled (f : gset str -> gset str) (st : state) : state :=
  {| processing_events := processing_events st;
     handled_events := f (handled_events st);
     ai_memory_cache := ai_memory_cache st;
     total_tokens_used := total_tokens_used st |}.

Definition set_cache (f : gmap str result -> gmap str result) (st : state) : state :=
  {| processing_events := processing_events st;
     handled_events := handled_events st;
     ai_memory_cache := f (ai_memory_cache st);
     total_tokens_used := total_tokens_used st |}.

Definition add_tokens (n : N) (st : state) : state :=
  {| processing_events := processing_events st;
     handled_events := handled_events st;
     ai_memory_cache := ai_memory_cache st;
     total_tokens_used := total_tokens_used st + n |}.

(** ** Literals of the source *)

Definition MARKER : str := Eval vm_compute in py "IA:".
Definition SEPARATOR : str := Eval vm_compute in py "| CMD:".
Definition NA : str := Eval vm_compute in py "N/A".
Definition ERRO_IA : str := Eval vm_compute in py "Erro IA".
Definition INDISPONIVEL : str :=
  Eval vm_compute in py "Indispon" ++ [237] ++ py "vel".
Definition AGUARDANDO : str := Eval vm_compute in py "Aguardando...".
Definition PROCESSANDO : str :=
  Eval vm_compute in [9889] ++ py " Processando...".

(** ** Helpers *)

(** The text of one tag, [f"{t['tag']}{sep}{t['value']}" if t['value']
    else t['tag']]; the condition is evaluated first. *)
Definition tag_text (sep : str) (t : tag) : res str :=
  v ← getitem (tag_value t);
  k ← getitem (tag_tag t);
  Ok (if truthy v then k ++ sep ++ v else k).

(** A list comprehension whose element expression may raise. *)
Fixpoint comprehension {A B} (f : A -> res B) (l : list A) : res (list B) :=
  match l with
  | [] => Ok []
  | a :: l' =>
      b ← f a;
      bs ← comprehension f l';
      Ok (b :: bs)
  end.

(** [sep.join(parts)]. *)
Fixpoint join (sep : str) (parts : list str) : str :=
  match parts with
  | [] => []
  | [p] => p
  | p :: ps => p ++ sep ++ join sep ps
  end.

Definition format_tags_text (tags : list tag) : res str :=
  match tags with
  | [] => Ok []
  | _ :: _ =>
      parts ← comprehension (tag_text (py ":")) (take 4 tags);
      Ok (join (py ", ") parts)
  end.

(** ** The enrichment task

    [run_ai_pipeline] is a coroutine: it runs until it awaits an
    external call and is resumed with the outcome of that call.  A task
    is the coroutine's arguments with the point at which it is
    suspended. *)

Inductive phase :=
  | Created       (* scheduled by [create_task], not started *)
  | AwaitAI       (* awaiting the chat completion request *)
  | AwaitPost     (* awaiting [post_zabbix_comment] and its HTTP request *)
  | AwaitNotify.  (* awaiting [send_telegram_alert], which sleeps first *)

Record task := {
  t_eid : str;
  t_problem : str;
  t_host : str;
  t_severity : str;
  t_tags : list tag;
  t_phase : phase
}.

Definition at_phase (ph : phase) (tk : task) : task :=
  {| t_eid := t_eid tk; t_problem := t_problem tk; t_host := t_host tk;
     t_severity := t_severity tk; t_tags := t_tags tk; t_phase := ph |}.

(** What [json.loads(response.choices[0].message.content)] does. *)
Inductive loads :=
  | NotJson                                   (* raises *)
  | JsonObject (analysis command : option str) (* a dict and its two keys *)
  | JsonOther.                                (* a value that is no dict *)

(** What the request to the enrichment service does. *)
Inductive ai_reply :=
  | ApiRaises                                  (* network error, timeout, ... *)
  | ApiReturns (usage : option N) (content : loads).

(** The outcome of the external call a task is resumed from. *)
Record world := {
  ai : ai_reply;
  post_raises : bool;
  notify_raises : bool
}.

(** The value [analyze_with_ai] returns. *)
Inductive ai_data :=
  | DataDict (analysis command : option str)
  | DataOther.

(** The [try] block of [analyze_with_ai], resumed with the reply: the
    token counter is updated before the content is decoded, and every
    exception yields the fixed dictionary of the [except] clause. *)
Definition analyze_with_ai (st : state) (r : ai_reply) : state * ai_data :=
  match r with
  | ApiRaises => (st, DataDict (Some ERRO_IA) (Some NA))
  | ApiReturns usage content =>
      let st' := match usage with
                 | Some n => add_tokens n st
                 | None => st
                 end in
      match content with
      | NotJson => (st', DataDict (Some ERRO_IA) (Some NA))
      | JsonObject a c => (st', DataDict a c)
      | JsonOther => (st', DataOther)
      end
  end.

(** [f"IA: {summary} | CMD: {action}"]. *)
Definition zabbix_msg (summary action : str) : str :=
  py "IA: " ++ summary ++ py " | CMD: " ++ action.

(** The [finally] clause of [run_ai_pipeline]. *)
Definition finish (eid : str) (st : state) : state :=
  set_processing (fun s => s ∖ {[eid]}) st.

(** What one resumption of a task does. *)
Record progress := {
  p_state : state;
  p_task : option task;          (* [None]: the coroutine has returned *)
  p_requests : list str;         (* requests sent to the enrichment service *)
  p_posted : list (str * str);   (* comments handed to [post_zabbix_comment] *)
  p_logged : bool                (* the [except] clause logged an error *)
}.

Definition suspended (st : state) (tk : task) (ph : phase)
    (requests : list str) (posted : list (str * str)) : progress :=
  {| p_state := st; p_task := Some (at_phase ph tk);
     p_requests := requests; p_posted := posted; p_logged := false |}.

(** The end of the [try] block is reached: the [finally] clause runs. *)
Definition returned (st : state) (tk : task) : progress :=
  {| p_state := finish (t_eid tk) st; p_task := None;
     p_requests := []; p_posted := []; p_logged := false |}.

(** An exception reaches [except Exception]: it is logged, and the
    [finally] clause runs. *)
Definition failed (st : state) (tk : task) : progress :=
  {| p_state := finish (t_eid tk) st; p_task := None;
     p_requests := []; p_posted := []; p_logged := true |}.

Definition run_ai_pipeline (st : state) (tk : task) (w : world) : progress :=
  match t_phase tk with
  | Created =>
      (* [analyze_with_ai] formats the tags before its [try] block, then
         sends the request *)
      match format_tags_text (t_tags tk) with
      | Raise _ => failed st tk
      | Ok _ => suspended st tk AwaitAI [t_eid tk] []
      end
  | AwaitAI =>
      let '(st1, data) := analyze_with_ai st (ai w) in
      match data with
      | DataOther => failed st1 tk       (* [ai_data.get] raises *)
      | DataDict a c =>
          let summary := default INDISPONIVEL a in
          let action := default NA c in
          let st2 := set_cache
                       <[t_eid tk := {| summary := summary; action := action |}]>
                       st1 in
          suspended st2 tk AwaitPost [] [(t_eid tk, zabbix_msg summary action)]
      end
  | AwaitPost =>
      (* the value [post_zabbix_comment] returns is not looked at *)
      if post_raises w then failed st tk
      else suspended st tk AwaitNotify [] []
  | AwaitNotify =>
      if notify_raises w then failed st tk else returned st tk
  end.

(** ** The pipeline *)

(** The scan of the acknowledgements: the message of the first one that
    contains the marker. *)
Fixpoint first_marked (acks : list ack) : option str :=
  match acks with
  | [] => None
  | a :: acks' =>
      let m := default [] (ack_message a) in
      if Str.contains MARKER m then Some m else first_marked acks'
  end.

(** The body of the [try] block of the recovery branch; [None] stands
    for an exception, which the [except] clause discards. *)
Definition parse_ack (msg : str) : option result :=
  let parts := Str.split SEPARATOR msg in
  p0 ← parts !! 0%nat;
  Some {| summary := Str.strip (Str.replace MARKER [] p0);
          action := match parts !! 1%nat with
                    | Some p1 => Str.strip p1
                    | None => NA
                    end |}.

(** The arguments of [run_ai_pipeline], evaluated from left to right. *)
Definition task_of (eid : str) (t : trigger) : res task :=
  d ← getitem (description t);
  hs ← getitem (hosts t);
  h ← first_item hs;
  n ← getitem (host_name h);
  p ← getitem (priority t);
  Ok {| t_eid := eid; t_problem := d; t_host := n; t_severity := p;
        t_tags := default [] (tags t); t_phase := Created |}.

(** The outcome of the loop body of [process_queue] for one trigger. *)
Record queued := {
  q_state : state;
  q_tasks : list task;      (* coroutines given to [create_task] *)
  q_raised : option exn     (* the exception that left the loop *)
}.

(** [ev = t.get('lastEvent', {})], when it is an object. *)
Definition event_of (t : trigger) : event :=
  match lastEvent t with
  | Some (EventObject ev) => ev
  | Some NotAnObject | None => {| eventid := None; acknowledges := None |}
  end.

(** [ev] is no object: [ev.get] raises [AttributeError]. *)
Definition no_object (t : trigger) : bool :=
  match lastEvent t with
  | Some NotAnObject => true
  | Some (EventObject _) | None => false
  end.

(** The two [continue] tests of the loop body. *)
Definition skipped (st : state) (eid : str) : bool :=
  negb (truthy eid)
  || bool_decide (eid ∈ processing_events st)
  || bool_decide (eid ∈ handled_events st)
  || bool_decide (is_Some (ai_memory_cache st !! eid)).

(** The loop body.  Without an acknowledgement that carries the marker,
    the event is put into both sets before the arguments of
    [run_ai_pipeline] are evaluated. *)
Definition process_trigger (st : state) (t : trigger) : queued :=
  if no_object t
  then {| q_state := st; q_tasks := []; q_raised := Some AttributeError |}
  else
    let ev := event_of t in
    match eventid ev with
    | None => {| q_state := st; q_tasks := []; q_raised := None |}
    | Some eid =>
        if skipped st eid
        then {| q_state := st; q_tasks := []; q_raised := None |}
        else
          match first_marked (default [] (acknowledges ev)) with
          | Some msg =>
              (* [has_ack = True]; the [try] block, then [break] *)
              let st' := match parse_ack msg with
                         | Some r => set_cache <[eid := r]> st
                         | None => st
                         end in
              {| q_state := st'; q_tasks := []; q_raised := None |}
          | None =>
              let st' := set_handled (fun s => {[eid]} ∪ s)
                           (set_processing (fun s => {[eid]} ∪ s) st) in
              match task_of eid t with
              | Ok tk => {| q_state := st'; q_tasks := [tk]; q_raised := None |}
              | Raise e => {| q_state := st'; q_tasks := []; q_raised := Some e |}
              end
          end
    end.

(** The [for] loop: an exception leaves the loop, and what the earlier
    iterations did to the global state stays. *)
Fixpoint process_queue (st : state) (triggers : list trigger) : queued :=
  match triggers with
  | [] => {| q_state := st; q_tasks := []; q_raised := None |}
  | t :: rest =>
      let q := process_trigger st t in
      match q_raised q with
      | Some _ => q
      | None =>
          let q' := process_queue (q_state q) rest in
          {| q_state := q_state q'; q_tasks := q_tasks q ++ q_tasks q';
             q_raised := q_raised q' |}
      end
  end.

(** ** The process: scheduler cycles interleaved with enrichment tasks

    Everything runs on one event loop, so the code between two [await]s
    is atomic.  The process is the global state with the tasks that were
    created and have not returned; three logs record what the process
    asked of its collaborators. *)

Record system := {
  sys_state : state;
  sys_tasks : list task;
  sys_dispatched : list str;       (* event ids given to [create_task] *)
  sys_requests : list str;         (* requests to the enrichment service *)
  sys_posted : list (str * str)    (* comments handed to the backend *)
}.

Definition boot : system :=
  {| sys_state := initial_state; sys_tasks := []; sys_dispatched := [];
     sys_requests := []; sys_posted := [] |}.

Inductive move :=
  | Cycle (triggers : list trigger)   (* [fetch_data] got these triggers *)
  | Resume (i : nat) (w : world).     (* the event loop resumes task [i] *)

Definition step (sys : system) (a : move) : system :=
  match a with
  | Cycle triggers =>
      let q := process_queue (sys_state sys) triggers in
      {| sys_state := q_state q;
         sys_tasks := sys_tasks sys ++ q_tasks q;
         sys_dispatched := sys_dispatched sys ++ (t_eid <$> q_tasks q);
         sys_requests := sys_requests sys;
         sys_posted := sys_posted sys |}
  | Resume i w =>
      match sys_tasks sys !! i with
      | None => sys
      | Some tk =>
          let p := run_ai_pipeline (sys_state sys) tk w in
          {| sys_state := p_state p;
             sys_tasks := match p_task p with
                          | Some tk' => <[i := tk']> (sys_tasks sys)
                          | None => delete i (sys_tasks sys)
                          end;
             sys_dispatched := sys_dispatched sys;
             sys_requests := sys_requests sys ++ p_requests p;
             sys_posted := sys_posted sys ++ p_posted p |}
      end
  end.

Definition run (sys : system) (trace : list move) : system :=
  foldl step sys trace.

(** A task that has stored its result and has not reached its [finally]
    clause. *)
Definition stored_pending (tk : task) : bool :=
  match t_phase tk with
  | AwaitPost | AwaitNotify => true
  | Created | AwaitAI => false
  end.

(** ** The snapshot *)

Record entry := {
  e_id : str;
  e_host : str;
  e_problem : str;
  e_severity : str;
  e_time : str;
  e_tags : list str;
  e_ai_summary : str;
  e_ai_action : option str
}.

Record stats := { s_total : N; s_critical : N; s_tokens : N }.

Record snapshot := { snap_stats : stats; snap_data : list entry }.

Section Dashboard.

(** [datetime.fromtimestamp(int(x)).strftime('%H:%M')]: the local time
    of a timestamp, [ValueError] when the text is no integer. *)
Variable strftime_HM : str -> res str.

Definition ai_summary_of (st : state) (eid : option str) : str :=
  match eid with
  | None => AGUARDANDO
  | Some e =>
      match ai_memory_cache st !! e with
      | Some r => summary r
      | None =>
          if bool_decide (e ∈ processing_events st)
          then PROCESSANDO else AGUARDANDO
      end
  end.

Definition ai_action_of (st : state) (eid : option str) : option str :=
  e ← eid; r ← ai_memory_cache st !! e; Some (action r).

Definition frontend_tags (t : trigger) : res (list str) :=
  comprehension (tag_text (py ": ")) (take 4 (default [] (tags t))).

Definition format_entry (st : state) (t : trigger) : res entry :=
  _ ← (if no_object t then Raise AttributeError else Ok tt);
  let eid := eventid (event_of t) in
  ftags ← frontend_tags t;
  id ← match eid with
             | Some e => if truthy e then Ok e else getitem (triggerid t)
             | None => getitem (triggerid t)
             end;
  hs ← getitem (hosts t);
  h ← match hs with
            | [] => Ok (py "?")
            | h0 :: _ => getitem (host_name h0)
            end;
  d ← getitem (description t);
  p ← getitem (priority t);
  lc ← getitem (lastchange t);
  tm ← strftime_HM lc;
  Ok {| e_id := id; e_host := h; e_problem := d; e_severity := p;
        e_time := tm; e_tags := ftags;
        e_ai_summary := ai_summary_of st eid;
        e_ai_action := ai_action_of st eid |}.

Definition is_critical (p : str) : bool :=
  bool_decide (p = py "4") || bool_decide (p = py "5").

Fixpoint dashboard_loop (st : state) (triggers : list trigger)
    (sts : stats) (formatted : list entry) : res (stats * list entry) :=
  match triggers with
  | [] => Ok (sts, formatted)
  | t :: rest =>
      p ← getitem (priority t);
      let sts' := {| s_total := s_total sts + 1;
                     s_critical := if is_critical p
                                   then s_critical sts + 1 else s_critical sts;
                     s_tokens := s_tokens sts |} in
      e ← format_entry st t;
      dashboard_loop st rest sts' (formatted ++ [e])
  end.

Definition format_dashboard (st : state) (triggers : list trigger)
    : res (option snapshot) :=
  match triggers with
  | [] => Ok None
  | _ :: _ =>
      out ← dashboard_loop st triggers
          {| s_total := 0; s_critical := 0; s_tokens := total_tokens_used st |}
          [];
      Ok (Some {| snap_stats := fst out; snap_data := snd out |})
  end.

End Dashboard.

(** ** The WebSocket manager *)

Module ConnectionManager.

(** A connection is known by its identity. *)
Abbreviation websocket := nat.

(** [list.remove]: the first occurrence goes. *)
Fixpoint remove_first (ws : websocket) (l : list websocket) : list websocket :=
  match l with
  | [] => []
  | c :: l' => if bool_decide (c = ws) then l' else c :: remove_first ws l'
  end.

Definition connect (ws : websocket) (active : list websocket) : list websocket :=
  active ++ [ws].

Definition disconnect (ws : websocket) (active : list websocket) : list websocket :=
  if bool_decide (ws ∈ active) then remove_first ws active else active.

(** The loop of [broadcast] over the copy of the list.  [send_raises]
    tells for which connections [send_text(message)] raises; a
    connection is registered once, so this does not depend on the
    attempt.  [delivered] collects the sends that returned. *)
Fixpoint broadcast_loop (send_raises : websocket -> str -> bool) (message : str)
    (copy active : list websocket) (delivered : list (websocket * str))
    : list websocket * list (websocket * str) :=
  match copy with
  | [] => (active, delivered)
  | c :: rest =>
      if send_raises c message
      then broadcast_loop send_raises message rest (disconnect c active) delivered
      else broadcast_loop send_raises message rest active
             (delivered ++ [(c, message)])
  end.

Definition broadcast (send_raises : websocket -> str -> bool) (message : str)
    (active : list websocket) : list websocket * list (websocket * str) :=
  broadcast_loop send_raises message active active [].

End ConnectionManager.

(** ** Predicates used by the proofs *)

(** A task runs until it returns: [drive] resumes it with the outcomes
    [ws], one per suspension. *)
Fixpoint drive (st : state) (tk : task) (ws : list world) : state * option task :=
  match ws with
  | [] => (st, Some tk)
  | w :: ws' =>
      let p := run_ai_pipeline st tk w in
      match p_task p with
      | None => (p_state p, None)
      | Some tk' => drive (p_state p) tk' ws'
      end
  end.

(** How far a task has come. *)
Definition phase_rank (ph : phase) : nat :=
  match ph with
  | Created => 0
  | AwaitAI => 1
  | AwaitPost => 2
  | AwaitNotify => 3
  end.

(** The failures of the enrichment service that [analyze_with_ai]
    catches: the request raises, or the content is not JSON. *)
Definition enrichment_failed (r : ai_reply) : bool :=
  match r with
  | ApiRaises => true
  | ApiReturns _ NotJson => true
  | ApiReturns _ _ => false
  end.

(** [s.partition(sep)]: the text before the first occurrence of [sep],
    and the text after it when there is one. *)
Fixpoint cut_go (sep s cur : str) : str * option str :=
  match s with
  | [] => (rev cur, None)
  | c :: s' =>
      if Str.startswith sep s
      then (rev cur, Some (drop (length sep) s))
      else cut_go sep s' (c :: cur)
  end.

Definition cut (sep s : str) : str * option str := cut_go sep s [].

(** [s.removeprefix(p)]. *)
Definition removeprefix (p s : str) : str :=
  if Str.startswith p s then drop (length p) s else s.

(** What the recovery branch stores for an acknowledgement text: the
    summary is the text before the first separator without any
    occurrence of the marker, the action is the text between the first
    and the second separator. *)
Definition marker_fields (msg : str) : result :=
  let '(before, rest) := cut SEPARATOR msg in
  {| summary := Str.strip (Str.replace MARKER [] before);
     action := match rest with
               | None => NA
               | Some after => Str.strip (fst (cut SEPARATOR after))
               end |}.

(** The two-part reading of the marker in the specification: the
    summary is the text before the separator without the marker prefix,
    the action is the text after the separator. *)
Definition two_part_fields (msg : str) : result :=
  let '(before, rest) := cut SEPARATOR msg in
  {| summary := Str.strip (removeprefix MARKER before);
     action := match rest with
               | None => NA
               | Some after => Str.strip after
               end |}.

(** No occurrence of [sep] starts inside [x] when [x] is followed by
    [rest]. *)
Fixpoint clear_before (sep x rest : str) : Prop :=
  match x with
  | [] => True
  | _ :: x' => Str.startswith sep (x ++ rest) = false ∧ clear_before sep x' rest
  end.

(** An event identifier no structure of the state knows. *)
Definition unseen (st : state) (eid : str) : Prop :=
  (eid ∉ processing_events st) ∧ (eid ∉ handled_events st)
  ∧ ai_memory_cache st !! eid = None.

(** What one call of the pipeline may do to the state. *)
Record queue_effect (st : state) (q : queued) : Prop := {
  qe_processing : processing_events st ⊆ processing_events (q_state q);
  qe_handled : handled_events st ⊆ handled_events (q_state q);
  qe_cache : ∀ e, is_Some (ai_memory_cache st !! e) →
             ai_memory_cache (q_state q) !! e = ai_memory_cache st !! e;
  qe_tokens : total_tokens_used (q_state q) = total_tokens_used st;
  qe_nodup : NoDup (t_eid <$> q_tasks q);
  qe_fresh : ∀ tk, tk ∈ q_tasks q →
             t_phase tk = Created ∧ (t_eid tk ∉ handled_events st)
             ∧ ai_memory_cache st !! t_eid tk = None
             ∧ t_eid tk ∈ handled_events (q_state q);
  qe_overlap : ∀ e, e ∈ processing_events (q_state q) →
               is_Some (ai_memory_cache (q_state q) !! e) →
               e ∈ processing_events st ∧ is_Some (ai_memory_cache st !! e)
}.

(** Two states with the same three collections. *)
Definition same_sets (st1 st : state) : Prop :=
  processing_events st1 = processing_events st
  ∧ handled_events st1 = handled_events st
  ∧ ai_memory_cache st1 = ai_memory_cache st.

(** The four things a resumption of a task can do. *)
Inductive resumed (st : state) (tk : task) (p : progress) : Prop :=
  | resumed_returned st1 :
      same_sets st1 st → p_state p = finish (t_eid tk) st1 → p_task p = None →
      p_requests p = [] → p_posted p = [] → resumed st tk p
  | resumed_started :
      t_phase tk = Created → p_state p = st →
      p_task p = Some (at_phase AwaitAI tk) → p_requests p = [t_eid tk] →
      resumed st tk p
  | resumed_stored st1 r :
      t_phase tk = AwaitAI → same_sets st1 st →
      p_state p = set_cache <[t_eid tk := r]> st1 →
      p_task p = Some (at_phase AwaitPost tk) → p_requests p = [] →
      resumed st tk p
  | resumed_posted :
      t_phase tk = AwaitPost → p_state p = st →
      p_task p = Some (at_phase AwaitNotify tk) → p_requests p = [] →
      resumed st tk p.

(** What the process maintains. *)
Record sys_inv (sys : system) : Prop := {
  inv_nodup : NoDup (sys_dispatched sys);
  inv_handled : ∀ e, e ∈ sys_dispatched sys → e ∈ handled_events (sys_state sys);
  inv_tasks : ∀ tk, tk ∈ sys_tasks sys → t_eid tk ∈ sys_dispatched sys;
  inv_tasks_nodup : NoDup (t_eid <$> sys_tasks sys);
  inv_requests : NoDup (sys_requests sys);
  inv_requests_sub : ∀ e, e ∈ sys_requests sys → e ∈ sys_dispatched sys;
  inv_created : ∀ tk, tk ∈ sys_tasks sys → t_phase tk = Created →
                t_eid tk ∉ sys_requests sys;
  inv_overlap : ∀ e, e ∈ processing_events (sys_state sys) →
                is_Some (ai_memory_cache (sys_state sys) !! e) →
                ∃ tk, tk ∈ sys_tasks sys ∧ t_eid tk = e ∧ stored_pending tk = true
}.

(** A trigger [format_dashboard] can render: every key it reads with
    [t[k]] is there, and ['lastEvent'] is an object when it is there. *)
Record renderable (strftime_HM : str -> res str) (t : trigger) : Prop := {
  r_triggerid : is_Some (triggerid t);
  r_description : is_Some (description t);
  r_priority : is_Some (priority t);
  r_lastchange : ∃ lc, lastchange t = Some lc ∧ ∃ tm, strftime_HM lc = Ok tm;
  r_hosts : ∃ hs, hosts t = Some hs
                  ∧ match hs with
                    | [] => True
                    | h :: _ => is_Some (host_name h)
                    end;
  r_tags : Forall (fun tg => is_Some (tag_tag tg) ∧ is_Some (tag_value tg))
                  (default [] (tags t));
  r_event : no_object t = false
}.

(** ** Sample inputs *)

Definition E1 : str := Eval vm_compute in py "E1".
Definition E2 : str := Eval vm_compute in py "E2".

Definition sample_trigger (eid : str) (acks : list str) (hs : list host)
    (tgs : list tag) : trigger :=
  {| triggerid := Some (py "T1");
     description := Some (py "Disk space is low");
     priority := Some (py "5");
     lastchange := Some (py "1700000000");
     hosts := Some hs;
     lastEvent :=
       Some (EventObject
               {| eventid := Some eid;
                  acknowledges :=
                    Some ((fun m => {| ack_message := Some m |}) <$> acks) |});
     tags := Some tgs |}.

Definition web01 : host := {| host_name := Some (py "web01") |}.

Definition sample_tag (k v : string) : tag :=
  {| tag_tag := Some (py k); tag_value := Some (py v) |}.

(** A trigger seen for the first time, with nothing missing. *)
Definition fresh_trigger (eid : str) : trigger :=
  sample_trigger eid [] [web01] [].

(** A trigger whose list of hosts is empty. *)
Definition hostless_trigger (eid : str) : trigger :=
  sample_trigger eid [] [] [].

(** A trigger without an event: ['lastEvent'] is an empty list. *)
Definition eventless_trigger : trigger :=
  {| triggerid := Some (py "T2");
     description := Some (py "Disk space is low");
     priority := Some (py "5");
     lastchange := Some (py "1700000000");
     hosts := Some [web01];
     lastEvent := Some NotAnObject;
     tags := Some [] |}.

(** A trigger whose event already carries an acknowledgement. *)
Definition acked_trigger (eid : str) (msg : string) : trigger :=
  sample_trigger eid [py msg] [web01] [].

(** A trigger with five tags, the third without a value. *)
Definition tagged_trigger : trigger :=
  sample_trigger E1 [] [web01]
    [sample_tag "env" "prod"; sample_tag "app" "db"; sample_tag "scope" "";
     sample_tag "team" "ops"; sample_tag "tier" "1"].

(** The enrichment service answers with an object. *)
Definition w_answer : world :=
  {| ai := ApiReturns (Some 42)
             (JsonObject (Some (py "disk full")) (Some (py "df -h")));
     post_raises := false; notify_raises := false |}.

(** The request to the enrichment service raises. *)
Definition w_failure : world :=
  {| ai := ApiRaises; post_raises := false; notify_raises := false |}.

(** A clock for the examples. *)
Definition noon (_ : str) : res str := Ok (py "12:00").

(** A task for the examples, suspended at a given point. *)
Definition sample_task (eid : str) (ph : phase) : task :=
  {| t_eid := eid; t_problem := py "Disk space is low"; t_host := py "web01";
     t_severity := py "5"; t_tags := []; t_phase := ph |}.

(** * The rest of [app/main.py] *)

(** ** The notification *)

Definition INFO : str := Eval vm_compute in py "Info".
Definition AVISO : str := Eval vm_compute in py "Aviso".
Definition MEDIA : str := Eval vm_compute in py "M" ++ [233] ++ py "dia".
Definition ALTA : str := Eval vm_compute in py "Alta".
Definition CRITICA : str := Eval vm_compute in py "Cr" ++ [237] ++ py "tica".
Definition ERRO : str := Eval vm_compute in py "Erro".

(** [sev_map.get(str(severity), 'Erro')] of [run_ai_pipeline]. *)
Definition sev_map (severity : str) : str :=
  if bool_decide (severity = py "1") then INFO
  else if bool_decide (severity = py "2") then AVISO
  else if bool_decide (severity = py "3") then MEDIA
  else if bool_decide (severity = py "4") then ALTA
  else if bool_decide (severity = py "5") then CRITICA
  else ERRO.

Definition UNKNOWN_ICON : str := [10067].

(** The dictionary [sev_icon] of [send_telegram_alert], with its
    default. *)
Definition sev_icon (severity : str) : str :=
  if bool_decide (severity = INFO) then [8505; 65039]
  else if bool_decide (severity = AVISO) then [9888; 65039]
  else if bool_decide (severity = MEDIA) then [128992]
  else if bool_decide (severity = ALTA) then [128293]
  else if bool_decide (severity = CRITICA) then [9760; 65039]
  else UNKNOWN_ICON.

(** One element of [tag_list]; the condition is evaluated first. *)
Definition hashtag (t : tag) : res str :=
  v ← getitem (tag_value t);
  k ← getitem (tag_tag t);
  Ok (if truthy v then py "#" ++ k ++ py ":" ++ v else py "#" ++ k).

(** Truth value of an environment variable. *)
Definition configured (v : option str) : bool :=
  match v with
  | Some s => truthy s
  | None => false
  end.

Section Telegram.

(** [str.upper]. *)
Variable upper : str -> str.

Definition html_text (host problem severity ai_summary ai_action tag_str : str)
    : str :=
  py "<b>" ++ sev_icon severity ++ py " " ++ upper severity ++ py " | " ++ host
  ++ py "</b>" ++ [10] ++ py "<code>" ++ problem ++ py "</code>" ++ [10; 10]
  ++ [129302] ++ py " <b>An" ++ [225] ++ py "lise IA:</b>" ++ [10]
  ++ ai_summary ++ [10; 10]
  ++ [128640] ++ py " <b>A" ++ [231; 227] ++ py "o:</b>" ++ [10]
  ++ py "<pre>" ++ ai_action ++ py "</pre>" ++ [10]
  ++ py "<span class=" ++ [34] ++ py "tg-spoiler" ++ [34] ++ py ">"
  ++ tag_str ++ py "</span>".

(** [send_telegram_alert] up to its HTTP request, whose failures the
    function discards: [Ok None] when the bot is not configured,
    [Ok (Some text)] with the text it sends, or the exception of the
    tag list. *)
Definition send_telegram_alert (bot_token chat_id : option str)
    (host problem severity ai_summary ai_action : str) (tags : list tag)
    : res (option str) :=
  if negb (configured bot_token) || negb (configured chat_id) then Ok None
  else
    tag_list ← comprehension hashtag (take 3 tags);
    Ok (Some (html_text host problem severity ai_summary ai_action
                (join (py " ") tag_list))).

(** The call of [send_telegram_alert] in [run_ai_pipeline]. *)
Definition notify (bot_token chat_id : option str) (tk : task) (r : result)
    : res (option str) :=
  send_telegram_alert bot_token chat_id (t_host tk) (t_problem tk)
    (sev_map (t_severity tk)) (summary r) (action r) (t_tags tk).

End Telegram.

(** ** Fetching the triggers *)

(** What the [trigger.get] request does. *)
Inductive backend_reply :=
  | RequestRaises                                  (* network error, no JSON *)
  | ReplyData (has_error : bool) (result : option (list trigger)).

(** What [fetch_data] leaves behind. *)
Record fetched := {
  f_token : option str;      (* [zabbix_auth_token] *)
  f_queue : queued;          (* what [process_queue] did, if it was called *)
  f_return : list trigger    (* the value returned to [loop] *)
}.

Definition not_called (st : state) : queued :=
  {| q_state := st; q_tasks := []; q_raised := None |}.

(** [fetch_data]; [login] is what [get_zabbix_token] returns when it is
    called ([None] for its [except] clause and for a missing key). *)
Definition fetch_data (token : option str) (st : state) (login : option str)
    (reply : backend_reply) : fetched :=
  let token' := if configured token then token else login in
  if negb (configured token')
  then {| f_token := token'; f_queue := not_called st; f_return := [] |}
  else
    match reply with
    | RequestRaises =>
        {| f_token := token'; f_queue := not_called st; f_return := [] |}
    | ReplyData true _ =>
        {| f_token := None; f_queue := not_called st; f_return := [] |}
    | ReplyData false result =>
        let triggers := default [] result in
        let q := process_queue st triggers in
        {| f_token := token'; f_queue := q;
           f_return := match q_raised q with
                       | Some _ => []       (* [except: return []] *)
                       | None => triggers
                       end |}
    end.

(** ** One iteration of [loop] after [fetch_data] *)

Section Loop.

Variable strftime_HM : str -> res str.

(** [json.dumps]. *)
Variable json_dumps : snapshot -> str.

Record published := {
  pub_active : list ConnectionManager.websocket;
  pub_delivered : list (ConnectionManager.websocket * str);
  pub_logged : bool          (* [logger.error] of the [except] clause *)
}.

(** [dash = format_dashboard(raw)], then the broadcast when [dash] is
    not [None]. *)
Definition publish (st : state) (raw : list trigger)
    (send_raises : ConnectionManager.websocket -> str -> bool)
    (active : list ConnectionManager.websocket) : published :=
  match format_dashboard strftime_HM st raw with
  | Raise _ =>
      {| pub_active := active; pub_delivered := []; pub_logged := true |}
  | Ok None =>
      {| pub_active := active; pub_delivered := []; pub_logged := false |}
  | Ok (Some dash) =>
      let out := ConnectionManager.broadcast send_raises (json_dumps dash) active in
      {| pub_active := fst out; pub_delivered := snd out; pub_logged := false |}
  end.

End Loop.

(** ** The routes *)

Module Routes.

Definition ACCESS_TOKEN : str := Eval vm_compute in py "access_token".
Definition AUTHORIZED : str := Eval vm_compute in py "authorized".

Inductive cookie_change :=
  | KeepCookies
  | SetCookie (key value : str) (httponly : bool)
  | DeleteCookie (key : str).

Inductive response :=
  | RedirectResponse (url : str) (status_code : N) (cookies : cookie_change)
  | TemplateResponse (name : str) (error : option str)
  | RequestValidationError (status_code : N).

(** The parameter [token: str = Form(...)]: a required field of the
    form.  The framework reads it before the handler runs, and takes a
    field that is missing, or empty, for a field that is not there. *)
Definition Form (field : option str) : option str :=
  match field with
  | Some value => if truthy value then Some value else None
  | None => None
  end.

(** [POST /login]; [DASHBOARD_TOKEN] is [None] when the variable is not
    set, [field] is what the submitted form has under [token].  Without
    the required field the framework answers 422 and the handler is not
    called. *)
Definition login (DASHBOARD_TOKEN : option str) (field : option str) : response :=
  match Form field with
  | None => RequestValidationError 422
  | Some token =>
      if bool_decide (Some token = DASHBOARD_TOKEN)
      then RedirectResponse (py "/") 303 (SetCookie ACCESS_TOKEN AUTHORIZED true)
      else TemplateResponse (py "login.html")
             (Some (py "Token Inv" ++ [225] ++ py "lido"))
  end.

(** [GET /logout]. *)
Definition logout : response :=
  RedirectResponse (py "/login") 307 (DeleteCookie ACCESS_TOKEN).

(** The test of [dashboard] and [ws] on the cookies of the request. *)
Definition authorized (cookies : gmap str str) : bool :=
  match cookies !! ACCESS_TOKEN with
  | Some token => truthy token && bool_decide (token = AUTHORIZED)
  | None => false
  end.

(** [GET /]. *)
Definition dashboard (cookies : gmap str str) : response :=
  if authorized cookies then TemplateResponse (py "index.html") None
  else RedirectResponse (py "/login") 307 KeepCookies.

(** What a client does with the cookies of a response. *)
Definition client_cookies (r : response) (cookies : gmap str str)
    : gmap str str :=
  match r with
  | RedirectResponse _ _ (SetCookie k v _) => <[k := v]> cookies
  | RedirectResponse _ _ (DeleteCookie k) => delete k cookies
  | _ => cookies
  end.

(** The handler [ws] up to its receive loop: the close code when the
    cookie is refused, the registration otherwise. *)
Definition ws_open (cookies : gmap str str) (ws : ConnectionManager.websocket)
    (active : list ConnectionManager.websocket)
    : list ConnectionManager.websocket * option N :=
  if authorized cookies then (ConnectionManager.connect ws active, None)
  else (active, Some 1008).

(** The [except] clause of the receive loop. *)
Definition ws_closed (ws : ConnectionManager.websocket)
    (active : list ConnectionManager.websocket)
    : list ConnectionManager.websocket :=
  ConnectionManager.disconnect ws active.

End Routes.

(** ** Further predicates used by the proofs *)

(** What a resumption of a task does, with what it logs. *)
Inductive resumption (st : state) (tk : task) (p : progress) : Prop :=
  | resumption_end st1 :
      same_sets st1 st →
      total_tokens_used st ≤ total_tokens_used st1 →
      p_state p = finish (t_eid tk) st1 → p_task p = None →
      p_requests p = [] → p_posted p = [] → resumption st tk p
  | resumption_start :
      t_phase tk = Created →
      p = suspended st tk AwaitAI [t_eid tk] [] → resumption st tk p
  | resumption_store st1 r :
      t_phase tk = AwaitAI → same_sets st1 st →
      total_tokens_used st ≤ total_tokens_used st1 →
      p = suspended (set_cache <[t_eid tk := r]> st1) tk AwaitPost []
            [(t_eid tk, zabbix_msg (summary r) (action r))] →
      resumption st tk p
  | resumption_post :
      t_phase tk = AwaitPost →
      p = suspended st tk AwaitNotify [] [] → resumption st tk p.

(** A task that has not stored anything yet. *)
Definition before_store (tk : task) : bool :=
  match t_phase tk with
  | Created | AwaitAI => true
  | AwaitPost | AwaitNotify => false
  end.

(** More of what the process maintains. *)
Record sys_inv2 (sys : system) : Prop := {
  inv2_flight : ∀ tk, tk ∈ sys_tasks sys →
                t_eid tk ∈ processing_events (sys_state sys);
  inv2_handled : processing_events (sys_state sys)
                 ⊆ handled_events (sys_state sys);
  inv2_posted : ∀ e m, (e, m) ∈ sys_posted sys →
                e ∈ sys_dispatched sys
                ∧ ∃ r, ai_memory_cache (sys_state sys) !! e = Some r
                       ∧ m = zabbix_msg (summary r) (action r);
  inv2_early : ∀ tk, tk ∈ sys_tasks sys → before_store tk = true →
               t_eid tk ∉ (sys_posted sys).*1;
  inv2_nodup : NoDup (sys_posted sys).*1
}.

(** No task that has yet to store its result finds one stored. *)
Definition unstored (sys : system) : Prop :=
  ∀ tk, tk ∈ sys_tasks sys → before_store tk = true →
  ai_memory_cache (sys_state sys) !! t_eid tk = None.

(** The state has a record of the event. *)
Definition known (st : state) (eid : str) : Prop :=
  eid ∈ handled_events st ∨ is_Some (ai_memory_cache st !! eid).

(** The trigger carries a non-empty event identifier. *)
Definition has_event_id (t : trigger) : bool :=
  match eventid (event_of t) with
  | Some eid => truthy eid
  | None => false
  end.

(** What [process_queue] raises on a batch in which nothing but
    ['lastEvent'] can be at fault. *)
Definition event_error (triggers : list trigger) : option exn :=
  if existsb no_object triggers then Some AttributeError else None.

(** A trigger [process_queue] can dispatch: the arguments of
    [run_ai_pipeline] can be evaluated. *)
Definition dispatchable (t : trigger) : Prop :=
  is_Some (description t)
  ∧ (∃ h hs, hosts t = Some (h :: hs) ∧ is_Some (host_name h))
  ∧ is_Some (priority t).

(** The test [t['priority'] in ['4', '5']] of [format_dashboard]. *)
Definition critical_trigger (t : trigger) : bool :=
  match priority t with
  | Some p => is_critical p
  | None => false
  end.

(** A tag with both of its keys. *)
Definition complete_tag (tg : tag) : Prop :=
  is_Some (tag_tag tg) ∧ is_Some (tag_value tg).

(** * Properties *)

(** ** Strings *)

Section StringFacts.

Import Str.

Lemma startswith_app p s : startswith p (p ++ s) = true.
Proof. induction p as [|a p IH]; simpl; [done|]. by rewrite N.eqb_refl. Qed.

Lemma split_go_skip sep pre s cur :
  split_go sep (pre ++ s) (length pre) cur = split_go sep s 0 cur.
Proof. induction pre as [|a pre IH]; simpl; [done|]. apply IH. Qed.

Lemma contains_false_cons sub c s :
  contains sub (c :: s) = false →
  startswith sub (c :: s) = false ∧ contains sub s = false.
Proof. simpl. intros H. by apply orb_false_elim in H. Qed.

Lemma split_go_absent sep s : 
  contains sep s = false → ∀ cur, split_go sep s 0 cur = [rev cur ++ s].
Proof.
  induction s as [|c s IH]; intros Hc cur; simpl.
  - by rewrite app_nil_r.
  - apply contains_false_cons in Hc as [Hs Hc]. simpl in Hs. rewrite Hs.
    rewrite IH by done. simpl. by rewrite <- app_assoc.
Qed.

Lemma split_go_first sep x y :
  sep ≠ [] → clear_before sep x (sep ++ y) →
  ∀ cur, split_go sep (x ++ sep ++ y) 0 cur = (rev cur ++ x) :: split_go sep y 0 [].
Proof.
  intros Hsep. induction x as [|c x IH]; intros Hx cur.
  - rewrite app_nil_r. destruct sep as [|a sep]; [done|].
    change (([] ++ (a :: sep) ++ y)) with (a :: (sep ++ y)).
    cbn [split_go]. 
    replace (startswith (a :: sep) (a :: sep ++ y)) with true
      by (symmetry; apply (startswith_app (a :: sep))).
    f_equal. replace (length (a :: sep) - 1)%nat with (length sep) by (simpl; lia).
    apply split_go_skip.
  - destruct Hx as [Hc Hx]. 
    change ((c :: x) ++ sep ++ y) with (c :: (x ++ sep ++ y)) in *.
    cbn [split_go]. rewrite Hc. rewrite IH by done. simpl. by rewrite <- app_assoc.
Qed.

Lemma sep_not_across b t :
  startswith SEPARATOR (b ++ 32 :: SEPARATOR ++ t) = true →
  startswith SEPARATOR b = true.
Proof.
  unfold SEPARATOR.
  do 6 (destruct b as [|? b]; [ simpl; repeat (rewrite ?andb_false_r; try done; case (_ =? _)%N; simpl) |]).
  done.
Qed.

Lemma clear_before_padded s t :
  contains SEPARATOR s = false →
  clear_before SEPARATOR (s ++ [32]) (SEPARATOR ++ t).
Proof.
  induction s as [|c s IH]; intros Hc.
  - by split.
  - apply contains_false_cons in Hc as [Hs Hc]. split; [|by apply IH].
    apply not_true_is_false. intros Hm. 
    rewrite <- (app_assoc (c :: s) [32]) in Hm. apply sep_not_across in Hm.
    congruence.
Qed.

Lemma split_marker_text s a :
  contains SEPARATOR s = false → contains SEPARATOR a = false →
  split SEPARATOR (zabbix_msg s a) = [py "IA: " ++ s ++ [32]; 32 :: a].
Proof.
  intros Hs Ha. unfold split, zabbix_msg.
  change (py " | CMD: ") with ([32] ++ SEPARATOR ++ [32]).
  replace (py "IA: " ++ s ++ ([32] ++ SEPARATOR ++ [32]) ++ a)
    with ((py "IA: " ++ s ++ [32]) ++ SEPARATOR ++ 32 :: a)
    by (by rewrite <- !app_assoc).
  rewrite split_go_first; [| done |].
  - simpl rev. rewrite app_nil_l. f_equal.
    apply (split_go_absent SEPARATOR (32 :: a)). simpl. by rewrite Ha.
  - repeat split; by apply clear_before_padded.
Qed.

Lemma replace_go_absent old new s :
  contains old s = false → replace_go old new s 0 = s.
Proof.
  induction s as [|c s IH]; intros Hc; [done|].
  apply contains_false_cons in Hc as [Hs Hc]. simpl in *. rewrite Hs.
  by rewrite IH.
Qed.

Lemma marker_not_across b :
  startswith MARKER (b ++ [32]) = true → startswith MARKER b = true.
Proof.
  unfold MARKER.
  do 3 (destruct b as [|? b]; [ simpl; repeat (rewrite ?andb_false_r; try done; case (_ =? _)%N; simpl) |]).
  done.
Qed.

Lemma contains_marker_padded s :
  contains MARKER s = false → contains MARKER (s ++ [32]) = false.
Proof.
  induction s as [|c s IH]; intros Hc; [done|].
  apply contains_false_cons in Hc as [Hs Hc].
  change ((c :: s) ++ [32]) with (c :: (s ++ [32])).
  cbn [contains]. rewrite IH by done. rewrite orb_false_r.
  apply not_true_is_false. intros Hm.
  apply (marker_not_across (c :: s)) in Hm. congruence.
Qed.

Lemma replace_marker_prefix s :
  contains MARKER s = false →
  replace MARKER [] (py "IA: " ++ s ++ [32]) = 32 :: s ++ [32].
Proof.
  intros Hs. unfold replace. 
  change (replace_go MARKER [] (py "IA: " ++ s ++ [32]) 0)
    with (replace_go MARKER [] (32 :: s ++ [32]) 0).
  apply replace_go_absent. cbn [contains].
  by rewrite contains_marker_padded.
Qed.

Lemma lstrip_length s : (length (lstrip s) ≤ length s)%nat.
Proof. induction s as [|c s IH]; simpl; [lia|]. case (isspace c); simpl; lia. Qed.

Lemma rstrip_length s : (length (rstrip s) ≤ length s)%nat.
Proof.
  induction s as [|c s IH]; simpl; [lia|].
  destruct (rstrip s); [case (isspace c)|]; simpl in *; lia.
Qed.

Lemma strip_fixed s : strip s = s → lstrip s = s ∧ rstrip s = s.
Proof.
  unfold strip. intros H.
  assert (Hl : lstrip s = s).
  { destruct s as [|c s]; [done|]. simpl in *. destruct (isspace c); [|done].
    pose proof (rstrip_length (lstrip s)). pose proof (lstrip_length s).
    rewrite H in *. simpl in *. lia. }
  by rewrite Hl in H.
Qed.

Lemma rstrip_space s : rstrip (s ++ [32]) = rstrip s.
Proof. induction s as [|c s IH]; simpl; [done|]. by rewrite IH. Qed.

Lemma lstrip_fixed_app s t : s ≠ [] → lstrip s = s → lstrip (s ++ t) = s ++ t.
Proof.
  destruct s as [|c s]; [done|]. intros _. simpl. destruct (isspace c); [|done].
  intros H. pose proof (lstrip_length s). rewrite H in *. simpl in *. lia.
Qed.

Lemma strip_padded s : strip s = s → strip (32 :: s ++ [32]) = s.
Proof.
  intros H. apply strip_fixed in H as [Hl Hr]. unfold strip.
  change (lstrip (32 :: s ++ [32])) with (lstrip (s ++ [32])).
  destruct s as [|c s]; [done|].
  rewrite lstrip_fixed_app by done. by rewrite rstrip_space.
Qed.

Lemma strip_led s : strip s = s → strip (32 :: s) = s.
Proof. done. Qed.

End StringFacts.

Section Partition.

Import Str.

Lemma split_go_drop sep s : ∀ k cur,
  split_go sep s k cur = split_go sep (drop k s) 0 cur.
Proof.
  induction s as [|c s IH]; intros k cur.
  - by rewrite drop_nil.
  - destruct k as [|k]; [done|]. apply IH.
Qed.

Lemma split_go_cut sep s : ∀ cur,
  sep ≠ [] →
  split_go sep s 0 cur =
    (cut_go sep s cur).1 ::
      match (cut_go sep s cur).2 with
      | None => []
      | Some after => split sep after
      end.
Proof.
  induction s as [|c s IH]; intros cur Hsep; [done|].
  cbn [split_go cut_go]. destruct (startswith sep (c :: s)).
  - cbn [fst snd]. f_equal. rewrite split_go_drop. unfold split. f_equal.
    destruct sep as [|a sep]; [done|]. simpl. by rewrite Nat.sub_0_r.
  - by apply IH.
Qed.

Lemma split_cut sep s :
  sep ≠ [] →
  split sep s = (cut sep s).1 ::
                match (cut sep s).2 with
                | None => []
                | Some after => split sep after
                end.
Proof. apply split_go_cut. Qed.

Lemma parse_ack_fields msg : parse_ack msg = Some (marker_fields msg).
Proof.
  unfold parse_ack, marker_fields.
  rewrite (split_cut SEPARATOR msg) by done.
  destruct (cut SEPARATOR msg) as [before [after|]]; cbn [fst snd]; [|done].
  rewrite (split_cut SEPARATOR after) by done. done.
Qed.

Lemma cut_go_absent sep s : ∀ cur,
  contains sep s = false → cut_go sep s cur = (rev cur ++ s, None).
Proof.
  induction s as [|c s IH]; intros cur Hc; simpl.
  - by rewrite app_nil_r.
  - apply contains_false_cons in Hc as [Hs Hc]. simpl in Hs. rewrite Hs.
    rewrite IH by done. simpl. by rewrite <- app_assoc.
Qed.

Lemma replace_marker_once b :
  contains MARKER b = false →
  replace MARKER [] (MARKER ++ b) = removeprefix MARKER (MARKER ++ b).
Proof.
  intros Hb. unfold replace, removeprefix.
  change (replace_go MARKER [] (MARKER ++ b) 0) with (replace_go MARKER [] b 0).
  change (startswith MARKER (MARKER ++ b))
    with ((73 =? 73) && ((65 =? 65) && ((58 =? 58) && true))).
  simpl. by apply replace_go_absent.
Qed.

(** On a text with the marker in front only and one separator at most,
    what the code stores is the two-part reading. *)
Lemma two_part_reading_agrees msg b rest :
  cut SEPARATOR msg = (MARKER ++ b, rest) →
  contains MARKER b = false →
  match rest with
  | Some after => contains SEPARATOR after = false
  | None => True
  end →
  marker_fields msg = two_part_fields msg.
Proof.
  intros Hcut Hb Hrest. unfold marker_fields, two_part_fields. rewrite Hcut.
  rewrite replace_marker_once by done. destruct rest as [after|]; [|done].
  unfold cut. by rewrite cut_go_absent.
Qed.

End Partition.

(** ** The pipeline and the process *)

Section Pipeline.

Lemma split_go_nonempty sep s k cur : Str.split_go sep s k cur ≠ [].
Proof.
  revert k cur. induction s as [|c s IH]; intros k cur; simpl; [done|].
  destruct k; [|apply IH]. case (Str.startswith _ _); [done|apply IH].
Qed.

Lemma parse_ack_total msg : is_Some (parse_ack msg).
Proof.
  unfold parse_ack, Str.split.
  pose proof (split_go_nonempty SEPARATOR msg 0 []) as H.
  destruct (Str.split_go SEPARATOR msg 0 []) as [|p0 ps]; [done|]. by eexists.
Qed.

Lemma skipped_false st eid :
  skipped st eid = false →
  truthy eid = true ∧ (eid ∉ processing_events st) ∧ (eid ∉ handled_events st)
  ∧ ai_memory_cache st !! eid = None.
Proof.
  unfold skipped. rewrite !orb_false_iff, negb_false_iff.
  intros [[[? ?%bool_decide_eq_false] ?%bool_decide_eq_false] Hc%bool_decide_eq_false].
  repeat split; try done. by apply eq_None_not_Some.
Qed.

Lemma task_of_eid eid t tk : task_of eid t = Ok tk → t_eid tk = eid ∧ t_phase tk = Created.
Proof.
  unfold task_of. 
  destruct (description t); [|done]. destruct (hosts t) as [[|h hs]|]; try done.
  simpl. destruct (host_name h); [|done]. destruct (priority t); [|done]. simpl.
  by intros [= <-].
Qed.

(** A trigger with an event id has an object under ['lastEvent']. *)
Lemma event_id_object t eid : eventid (event_of t) = Some eid → no_object t = false.
Proof. unfold event_of, no_object. by destruct (lastEvent t) as [[ev|]|]. Qed.

Lemma queue_effect_skip st e : queue_effect st {| q_state := st; q_tasks := []; q_raised := e |}.
Proof. split; simpl; try done. - constructor. - set_solver. Qed.

Lemma process_trigger_effect st t : queue_effect st (process_trigger st t).
Proof.
  unfold process_trigger. destruct (no_object t); [apply queue_effect_skip|].
  destruct (eventid (event_of t)) as [eid|]; [|apply queue_effect_skip].
  destruct (skipped st eid) eqn:Hsk; [apply queue_effect_skip|].
  apply skipped_false in Hsk as (_ & Hp & Hh & Hc).
  destruct (first_marked _) as [msg|].
  - destruct (parse_ack_total msg) as [r ->].
    split; simpl; try done.
    + intros e [x Hx]. rewrite lookup_insert_ne; [done|congruence].
    + constructor.
    + set_solver.
    + intros e He. rewrite lookup_insert. case_decide; [by subst|]. done.
  - assert (queue_effect st {| q_state := set_handled (union {[eid]}) (set_processing (union {[eid]}) st); q_tasks := []; q_raised := None |} ) as Hq.
    { split; simpl; try done; try set_solver. - constructor. 
      - intros e He Hs. assert (e ≠ eid) by (intros ->; rewrite Hc in Hs; by destruct Hs). set_solver. }
    destruct (task_of eid t) as [tk|e] eqn:Htk.
    + apply task_of_eid in Htk as [<- Hph]. destruct Hq. split; simpl in *; try done.
      * apply NoDup_singleton.
      * intros tk' ->%list_elem_of_singleton. set_solver.
    + destruct Hq; split; done.
Qed.

Lemma queue_effect_seq st q1 q2 :
  queue_effect st q1 → queue_effect (q_state q1) q2 →
  queue_effect st {| q_state := q_state q2; q_tasks := q_tasks q1 ++ q_tasks q2;
                     q_raised := q_raised q2 |}.
Proof.
  intros [] []. split; simpl.
  - set_solver.
  - set_solver.
  - intros e He. rewrite qe_cache1; [by apply qe_cache0|].
    rewrite qe_cache0; done.
  - congruence.
  - rewrite fmap_app. apply NoDup_app. split; [done|]. split; [|done].
    intros e (tk1 & -> & H1)%list_elem_of_fmap (tk2 & Heq & H2)%list_elem_of_fmap.
    apply qe_fresh0 in H1 as (_ & _ & _ & H1).
    apply qe_fresh1 in H2 as (_ & H2 & _). rewrite Heq in H1. done.
  - intros tk [H|H]%elem_of_app.
    + apply qe_fresh0 in H as (? & ? & ? & ?). set_solver.
    + apply qe_fresh1 in H as (? & ? & Hc & ?). repeat split; [done|set_solver| |done].
      apply eq_None_not_Some. intros Hs. rewrite <- (qe_cache0 _ Hs), Hc in Hs.
      by destruct Hs.
  - intros e H1 H2. destruct (qe_overlap1 e H1 H2) as [H3 H4]. by apply qe_overlap0.
Qed.

Lemma process_queue_effect triggers : ∀ st, queue_effect st (process_queue st triggers).
Proof.
  induction triggers as [|t rest IH]; intros st; simpl.
  - apply queue_effect_skip.
  - pose proof (process_trigger_effect st t) as H1.
    destruct (q_raised (process_trigger st t)); [done|].
    by apply queue_effect_seq.
Qed.

Lemma analyze_with_ai_sets st r : same_sets (analyze_with_ai st r).1 st.
Proof. destruct r as [|[u|] []]; done. Qed.

Lemma run_ai_pipeline_resumed st tk w : resumed st tk (run_ai_pipeline st tk w).
Proof.
  unfold run_ai_pipeline. destruct (t_phase tk) eqn:Hph.
  - destruct (format_tags_text (t_tags tk)).
    + by apply resumed_started.
    + by eapply resumed_returned.
  - pose proof (analyze_with_ai_sets st (ai w)) as Hs.
    destruct (analyze_with_ai st (ai w)) as [st1 [a c|]]; simpl in Hs.
    + by eapply resumed_stored.
    + by eapply resumed_returned.
  - destruct (post_raises w).
    + by eapply resumed_returned.
    + by apply resumed_posted.
  - destruct (notify_raises w); by eapply resumed_returned.
Qed.

Lemma sys_inv_boot : sys_inv boot.
Proof. split; simpl; try done; try apply NoDup_nil_2; set_solver. Qed.

Lemma sys_inv_cycle sys triggers : sys_inv sys → sys_inv (step sys (Cycle triggers)).
Proof.
  intros [].
  destruct (process_queue_effect triggers (sys_state sys)) as [Hp Hh Hc _ Hn Hf Ho].
  assert (Hnew : ∀ e, e ∈ t_eid <$> q_tasks (process_queue (sys_state sys) triggers) →
                 (e ∉ handled_events (sys_state sys))
                 ∧ e ∈ handled_events (q_state (process_queue (sys_state sys) triggers))).
  { intros e (tk & -> & Htk)%list_elem_of_fmap. by apply Hf in Htk as (_ & ? & _ & ?). }
  split; simpl.
  - apply NoDup_app. split; [done|]. split; [|done].
    intros e He Hnw. apply Hnew in Hnw as [Hnw _]. by apply Hnw, inv_handled0.
  - intros e [He|He]%elem_of_app; [by apply Hh, inv_handled0 | by apply Hnew].
  - intros tk [Htk|Htk]%elem_of_app; apply elem_of_app.
    + left. by apply inv_tasks0.
    + right. by apply list_elem_of_fmap_2.
  - rewrite fmap_app. apply NoDup_app. split; [done|]. split; [|done].
    intros e (tk & -> & Htk)%list_elem_of_fmap Hnw. apply Hnew in Hnw as [Hnw _].
    by apply Hnw, inv_handled0, inv_tasks0.
  - done.
  - intros e He. apply elem_of_app. left. by apply inv_requests_sub0.
  - intros tk [Htk|Htk]%elem_of_app Hph; [by apply inv_created0|].
    intros Hr. apply Hf in Htk as (_ & Htk & _).
    by apply Htk, inv_handled0, inv_requests_sub0.
  - intros e He Hs. destruct (Ho e He Hs) as [He' Hs'].
    destruct (inv_overlap0 e He' Hs') as (tk & Htk & ? & ?).
    exists tk. split; [|done]. apply elem_of_app. by left.
Qed.

Lemma tasks_middle (tasks : list task) i tk :
  tasks !! i = Some tk →
  ∃ l1 l2, tasks = l1 ++ tk :: l2
           ∧ (∀ tk', <[i := tk']> tasks = l1 ++ tk' :: l2)
           ∧ delete i tasks = l1 ++ l2.
Proof.
  intros Hi. exists (take i tasks), (drop (S i) tasks). split; [|split].
  - by rewrite take_drop_middle.
  - intros tk'. apply insert_take_drop. by eapply lookup_lt_Some.
  - apply delete_take_drop.
Qed.

Lemma others_differ l1 (tk : task) l2 :
  NoDup (t_eid <$> l1 ++ tk :: l2) → ∀ x, x ∈ l1 ++ l2 → t_eid x ≠ t_eid tk.
Proof.
  rewrite fmap_app, fmap_cons. intros Hn x Hx He.
  apply NoDup_app in Hn as (_ & H1 & H2). apply NoDup_cons in H2 as [H2 _].
  apply elem_of_app in Hx as [Hx|Hx].
  - apply (H1 (t_eid x)); [by apply list_elem_of_fmap_2|]. rewrite He. by left.
  - apply H2. rewrite <- He. by apply list_elem_of_fmap_2.
Qed.

Lemma elem_of_middle {A} (l1 l2 : list A) a x :
  x ∈ l1 ++ a :: l2 ↔ x = a ∨ x ∈ l1 ++ l2.
Proof. rewrite !elem_of_app, elem_of_cons. tauto. Qed.

Lemma nodup_replace l1 (tk tk' : task) l2 :
  t_eid tk' = t_eid tk →
  NoDup (t_eid <$> l1 ++ tk :: l2) → NoDup (t_eid <$> l1 ++ tk' :: l2).
Proof. intros He. by rewrite !fmap_app, !fmap_cons, He. Qed.

Lemma nodup_remove l1 (tk : task) l2 :
  NoDup (t_eid <$> l1 ++ tk :: l2) → NoDup (t_eid <$> l1 ++ l2).
Proof.
  rewrite !fmap_app, fmap_cons. intros Hn.
  apply NoDup_app in Hn as (H0 & H1 & [H2 H3]%NoDup_cons).
  apply NoDup_app. split; [done|]. split; [|done].
  intros e He He'. apply (H1 e He). by right.
Qed.

Lemma sys_inv_resume sys i w : sys_inv sys → sys_inv (step sys (Resume i w)).
Proof.
  intros Hinv. simpl. destruct (sys_tasks sys !! i) as [tk|] eqn:Hi; [|done].
  destruct Hinv. destruct (tasks_middle _ _ _ Hi) as (l1 & l2 & Hl & Hins & Hdel).
  rewrite Hl in *. clear Hl Hi.
  pose proof (others_differ _ _ _ inv_tasks_nodup0) as Hoth.
  assert (Htk : t_eid tk ∈ sys_dispatched sys) by (apply inv_tasks0, elem_of_middle; by left).
  destruct (run_ai_pipeline_resumed (sys_state sys) tk w)
    as [st1 (Hs1 & Hs2 & Hs3) -> -> -> _ | Hph -> -> -> | st1 r Hph (Hs1 & Hs2 & Hs3) -> -> -> | Hph -> -> ->];
    rewrite ?app_nil_r, ?Hdel, ?Hins; split; simpl; try done.
  - by rewrite Hs2.
  - intros x Hx. apply inv_tasks0, elem_of_middle. by right.
  - by apply (nodup_remove l1 tk).
  - intros x Hx. apply inv_created0, elem_of_middle. by right.
  - rewrite Hs1, Hs3. intros e [He Hne]%elem_of_difference Hs.
    destruct (inv_overlap0 e He Hs) as (x & [->|Hx]%elem_of_middle & Hxe & Hxp).
    + set_solver.
    + by exists x.
  - intros x [->|Hx]%elem_of_middle; [done|]. apply inv_tasks0, elem_of_middle. by right.
  - by apply (nodup_replace l1 tk).
  - apply NoDup_app. split; [done|]. split; [|apply NoDup_singleton].
    intros e He ->%list_elem_of_singleton. revert He. apply inv_created0; [|done].
    apply elem_of_middle. by left.
  - intros e [He| ->%list_elem_of_singleton]%elem_of_app; [by apply inv_requests_sub0|done].
  - intros x [->|Hx]%elem_of_middle Hxp; [by simpl in Hxp|].
    intros [He| He%list_elem_of_singleton]%elem_of_app.
    + revert He. apply inv_created0; [|done]. apply elem_of_middle. by right.
    + by apply (Hoth x).
  - intros e He Hs. destruct (inv_overlap0 e He Hs) as (x & [->|Hx]%elem_of_middle & Hxe & Hxp).
    + unfold stored_pending in Hxp. by rewrite Hph in Hxp.
    + exists x. split; [|done]. apply elem_of_middle. by right.
  - by rewrite Hs2.
  - intros x [->|Hx]%elem_of_middle; [done|]. apply inv_tasks0, elem_of_middle. by right.
  - by apply (nodup_replace l1 tk).
  - intros x [->|Hx]%elem_of_middle Hxp; [by simpl in Hxp|]. apply inv_created0; [|done].
    apply elem_of_middle. by right.
  - rewrite Hs1, Hs3. intros e He Hs. destruct (decide (e = t_eid tk)) as [->|Hne].
    + exists (at_phase AwaitPost tk). split; [|done]. apply elem_of_middle. by left.
    + rewrite lookup_insert_ne in Hs by done.
      destruct (inv_overlap0 e He Hs) as (x & [->|Hx]%elem_of_middle & Hxe & Hxp); [done|].
      exists x. split; [|done]. apply elem_of_middle. by right.
  - intros x [->|Hx]%elem_of_middle; [done|]. apply inv_tasks0, elem_of_middle. by right.
  - by apply (nodup_replace l1 tk).
  - intros x [->|Hx]%elem_of_middle Hxp; [by simpl in Hxp|]. apply inv_created0; [|done].
    apply elem_of_middle. by right.
  - intros e He Hs. destruct (inv_overlap0 e He Hs) as (x & [->|Hx]%elem_of_middle & Hxe & Hxp).
    + exists (at_phase AwaitNotify tk). split; [|done]. apply elem_of_middle. by left.
    + exists x. split; [|done]. apply elem_of_middle. by right.
Qed.

Lemma sys_inv_run trace : ∀ sys, sys_inv sys → sys_inv (run sys trace).
Proof.
  induction trace as [|a trace IH]; intros sys Hinv; [done|].
  apply IH. destruct a; [by apply sys_inv_cycle | by apply sys_inv_resume].
Qed.
End Pipeline.

(** What the resumption of a task changes: only what concerns the
    event of that task. *)
Lemma resume_effect sys i w :
  step sys (Resume i w) = sys
  ∨ ∃ tk, tk ∈ sys_tasks sys
     ∧ handled_events (sys_state (step sys (Resume i w)))
       = handled_events (sys_state sys)
     ∧ (∀ e, e ≠ t_eid tk →
          (e ∈ processing_events (sys_state (step sys (Resume i w)))
           ↔ e ∈ processing_events (sys_state sys))
          ∧ ai_memory_cache (sys_state (step sys (Resume i w))) !! e
            = ai_memory_cache (sys_state sys) !! e)
     ∧ (∀ e, is_Some (ai_memory_cache (sys_state sys) !! e) →
          is_Some (ai_memory_cache (sys_state (step sys (Resume i w))) !! e))
     ∧ sys_dispatched (step sys (Resume i w)) = sys_dispatched sys
     ∧ (∀ x, x ∈ sys_tasks (step sys (Resume i w)) →
          t_eid x = t_eid tk ∨ x ∈ sys_tasks sys)
     ∧ (∀ e, e ∈ sys_requests (step sys (Resume i w)) →
          e ∈ sys_requests sys ∨ e = t_eid tk).
Proof.
  simpl. destruct (sys_tasks sys !! i) as [tk|] eqn:Hi; [right|by left].
  exists tk. split; [by eapply list_elem_of_lookup_2|].
  destruct (tasks_middle _ _ _ Hi) as (l1 & l2 & Hl & Hins & Hdel).
  assert (Hkeep : ∀ x, x ∈ l1 ++ l2 → x ∈ sys_tasks sys)
    by (intros x Hx; rewrite Hl; apply elem_of_middle; by right).
  destruct (run_ai_pipeline_resumed (sys_state sys) tk w)
    as [st1 (Hs1 & Hs2 & Hs3) -> -> -> _ | Hph -> -> ->
       | st1 r Hph (Hs1 & Hs2 & Hs3) -> -> -> | Hph -> -> ->];
    simpl; rewrite ?Hs1, ?Hs2, ?Hs3, ?Hins, ?Hdel, ?app_nil_r.
  - repeat split; try done; try set_solver.
  - repeat split; try done.
    + intros x [->|Hx]%elem_of_middle; [by left|right; by apply Hkeep].
    + intros e [He| ->%list_elem_of_singleton]%elem_of_app; [by left|by right].
  - repeat split; try done.
    + by rewrite lookup_insert_ne.
    + intros e He. rewrite lookup_insert. by case_decide.
    + intros x [->|Hx]%elem_of_middle; [by left|right; by apply Hkeep].
    + by left.
  - repeat split; try done.
    + intros x [->|Hx]%elem_of_middle; [by left|right; by apply Hkeep].
    + by left.
Qed.

(** What the state has recorded about an event stays recorded. *)
Lemma step_keeps_known sys a eid :
  eid ∈ handled_events (sys_state sys)
  ∨ is_Some (ai_memory_cache (sys_state sys) !! eid) →
  eid ∈ handled_events (sys_state (step sys a))
  ∨ is_Some (ai_memory_cache (sys_state (step sys a)) !! eid).
Proof.
  intros Hk. destruct a as [triggers|i w].
  - destruct (process_queue_effect triggers (sys_state sys)) as [_ Hh Hc _ _ _ _].
    simpl. destruct Hk as [Hk|Hk]; [left; by apply Hh|right; by rewrite Hc].
  - destruct (resume_effect sys i w) as [->|(tk & _ & Hh & _ & Hc & _)]; [done|].
    destruct Hk as [Hk|Hk]; [left; by rewrite Hh|right; by apply Hc].
Qed.

(** Whatever the process does next, it dispatches no event that its
    state has recorded. *)
Lemma step_dispatches_unknown sys a :
  ∃ new, sys_dispatched (step sys a) = sys_dispatched sys ++ new
         ∧ ∀ e, e ∈ new →
             (e ∉ handled_events (sys_state sys))
             ∧ ai_memory_cache (sys_state sys) !! e = None.
Proof.
  destruct a as [triggers|i w].
  - eexists. split; [done|].
    destruct (process_queue_effect triggers (sys_state sys)) as [_ _ _ _ _ Hf _].
    intros e (tk & -> & Htk)%list_elem_of_fmap.
    by apply Hf in Htk as (_ & ? & ? & _).
  - exists []. rewrite app_nil_r. split; [|set_solver].
    by destruct (resume_effect sys i w) as [->|(tk & _ & _ & _ & _ & -> & _)].
Qed.

Lemma run_dispatches_unknown later : ∀ sys eid,
  eid ∈ handled_events (sys_state sys)
  ∨ is_Some (ai_memory_cache (sys_state sys) !! eid) →
  ∃ new, sys_dispatched (run sys later) = sys_dispatched sys ++ new ∧ eid ∉ new.
Proof.
  induction later as [|a later IH]; intros sys eid Hk.
  - exists []. split; [by rewrite app_nil_r|apply not_elem_of_nil].
  - destruct (step_dispatches_unknown sys a) as (new1 & Hd & Hnew).
    destruct (IH (step sys a) eid (step_keeps_known sys a eid Hk)) as (new2 & Hd2 & Hn2).
    exists (new1 ++ new2). split.
    + change (run sys (a :: later)) with (run (step sys a) later).
      by rewrite Hd2, Hd, app_assoc.
    + intros [Hin|Hin]%elem_of_app; [|done].
      apply Hnew in Hin as [Hh Hc]. destruct Hk as [Hk|[r Hk]]; [done|congruence].
Qed.

Lemma run_app sys trace later : run sys (trace ++ later) = run (run sys trace) later.
Proof. apply foldl_app. Qed.

(** An event that is in flight and in the handled set, and for which
    no task exists, stays in flight. *)
Lemma stranded_stays later : ∀ sys eid,
  eid ∈ processing_events (sys_state sys) →
  eid ∈ handled_events (sys_state sys) →
  (∀ tk, tk ∈ sys_tasks sys → t_eid tk ≠ eid) →
  eid ∈ processing_events (sys_state (run sys later)).
Proof.
  induction later as [|a later IH]; intros sys eid Hp Hh Ht; [done|].
  change (run sys (a :: later)) with (run (step sys a) later).
  destruct a as [triggers|i w].
  - destruct (process_queue_effect triggers (sys_state sys)) as [Hp' Hh' _ _ _ Hf _].
    apply IH; simpl; [by apply Hp'|by apply Hh'|].
    intros tk [Htk|Htk]%elem_of_app; [by apply Ht|].
    apply Hf in Htk as (_ & Hn & _). intros He. by rewrite He in Hn.
  - destruct (resume_effect sys i w) as [->|(tk & Htk & Hh' & Hst & _ & _ & Hts & _)];
      [by apply IH|].
    apply IH.
    + apply Hst; [|done]. intros ->. by apply (Ht tk).
    + by rewrite Hh'.
    + intros x [Hx|Hx]%Hts; [|by apply Ht]. rewrite Hx. by apply Ht.
Qed.

Lemma skipped_unseen st eid :
  truthy eid = true → unseen st eid → skipped st eid = false.
Proof.
  intros Ht (Hp & Hh & Hc). unfold skipped. rewrite Ht. simpl.
  rewrite !bool_decide_eq_false_2; [done| |done|done].
  rewrite Hc. by intros [? ?].
Qed.

(** A trigger of another event leaves what the state has recorded about
    [eid] as it is, and dispatches nothing for [eid]. *)
Lemma process_trigger_frame st t eid :
  eventid (event_of t) ≠ Some eid →
  (eid ∈ processing_events (q_state (process_trigger st t))
   ↔ eid ∈ processing_events st)
  ∧ (eid ∈ handled_events (q_state (process_trigger st t))
     ↔ eid ∈ handled_events st)
  ∧ ai_memory_cache (q_state (process_trigger st t)) !! eid
    = ai_memory_cache st !! eid
  ∧ ∀ tk, tk ∈ q_tasks (process_trigger st t) → t_eid tk ≠ eid.
Proof.
  intros Hne. unfold process_trigger.
  assert (Hnil : ∀ tk : task, tk ∈ [] → t_eid tk ≠ eid)
    by (intros tk Htk; by apply elem_of_nil in Htk).
  destruct (no_object t); [done|].
  destruct (eventid (event_of t)) as [e|]; [|done].
  assert (e ≠ eid) by congruence.
  destruct (skipped st e); [done|].
  destruct (first_marked _) as [msg|].
  - destruct (parse_ack msg); simpl; rewrite ?lookup_insert_ne by done; done.
  - destruct (task_of e t) as [tk|] eqn:Htk; simpl;
      (split; [set_solver|]); (split; [set_solver|]); (split; [done|]); [|done].
    apply task_of_eid in Htk as [<- _]. by intros tk' ->%list_elem_of_singleton.
Qed.

Lemma process_queue_frame eid triggers : ∀ st,
  Forall (fun t => eventid (event_of t) ≠ Some eid) triggers →
  (eid ∈ processing_events (q_state (process_queue st triggers))
   ↔ eid ∈ processing_events st)
  ∧ (eid ∈ handled_events (q_state (process_queue st triggers))
     ↔ eid ∈ handled_events st)
  ∧ ai_memory_cache (q_state (process_queue st triggers)) !! eid
    = ai_memory_cache st !! eid
  ∧ ∀ tk, tk ∈ q_tasks (process_queue st triggers) → t_eid tk ≠ eid.
Proof.
  induction triggers as [|t rest IH]; intros st Hall; simpl.
  - repeat split; try done. intros tk Htk. by apply elem_of_nil in Htk.
  - apply Forall_cons in Hall as [Ht Hrest].
    destruct (process_trigger_frame st t eid Ht) as (Hp & Hh & Hc & Hts).
    destruct (q_raised (process_trigger st t)); [done|].
    destruct (IH (q_state (process_trigger st t)) Hrest) as (Hp' & Hh' & Hc' & Hts').
    simpl. rewrite Hp', Hh', Hc'. repeat split; try tauto.
    intros tk [Htk|Htk]%elem_of_app; auto.
Qed.

Lemma process_queue_app st before rest :
  q_raised (process_queue st before) = None →
  process_queue st (before ++ rest)
  = {| q_state := q_state (process_queue (q_state (process_queue st before)) rest);
       q_tasks := q_tasks (process_queue st before)
                  ++ q_tasks (process_queue (q_state (process_queue st before)) rest);
       q_raised := q_raised (process_queue (q_state (process_queue st before)) rest) |}.
Proof.
  revert st. induction before as [|t before IH]; intros st; simpl.
  - intros _. by destruct (process_queue st rest).
  - destruct (q_raised (process_trigger st t)) eqn:Hr; simpl.
    + intros Hq. by rewrite Hq in Hr.
    + intros Hq. rewrite IH by done. simpl. by rewrite app_assoc.
Qed.

Lemma process_trigger_recovers st t eid msg :
  eventid (event_of t) = Some eid → skipped st eid = false →
  first_marked (default [] (acknowledges (event_of t))) = Some msg →
  process_trigger st t
  = {| q_state := set_cache <[eid := marker_fields msg]> st;
       q_tasks := []; q_raised := None |}.
Proof.
  intros He Hsk Hm. unfold process_trigger.
  by rewrite (event_id_object t eid He), He, Hsk, Hm, parse_ack_fields.
Qed.

(** The cycle that first sees an acknowledged event stores the parsed
    text and dispatches nothing for it. *)
Lemma cycle_recovers st before t after eid msg :
  skipped st eid = false →
  q_raised (process_queue st before) = None →
  Forall (fun t' => eventid (event_of t') ≠ Some eid) before →
  eventid (event_of t) = Some eid →
  first_marked (default [] (acknowledges (event_of t))) = Some msg →
  ai_memory_cache (q_state (process_queue st (before ++ t :: after))) !! eid
  = Some (marker_fields msg)
  ∧ ∀ tk, tk ∈ q_tasks (process_queue st (before ++ t :: after)) → t_eid tk ≠ eid.
Proof.
  intros Hsk Hr Hb He Hm.
  destruct (process_queue_frame eid before st Hb) as (Hp & Hh & Hc & Hts).
  apply skipped_false in Hsk as (Htr & Hp0 & Hh0 & Hc0).
  assert (Hsk' : skipped (q_state (process_queue st before)) eid = false).
  { apply skipped_unseen; [done|]. repeat split; [tauto|tauto|congruence]. }
  rewrite process_queue_app by done. cbn [process_queue].
  rewrite (process_trigger_recovers _ t eid msg) by done. cbn [q_raised q_state q_tasks].
  set (st1 := set_cache _ _).
  destruct (process_queue_effect after st1) as [_ _ Hc1 _ _ Hf _].
  assert (Hst1 : ai_memory_cache st1 !! eid = Some (marker_fields msg))
    by apply lookup_insert_eq.
  split.
  - by rewrite Hc1 by (by rewrite Hst1).
  - intros tk [Htk|Htk]%elem_of_app; [by apply Hts|].
    apply Hf in Htk as (_ & _ & Hn & _). intros Heq. by rewrite Heq, Hst1 in Hn.
Qed.

(** A stored result for which no task exists stays as it is, and its
    event is neither dispatched nor sent to the enrichment service. *)
Lemma recovered_stays later : ∀ sys eid r,
  ai_memory_cache (sys_state sys) !! eid = Some r →
  (∀ tk, tk ∈ sys_tasks sys → t_eid tk ≠ eid) →
  eid ∉ sys_dispatched sys → eid ∉ sys_requests sys →
  ai_memory_cache (sys_state (run sys later)) !! eid = Some r
  ∧ (eid ∉ sys_dispatched (run sys later))
  ∧ (eid ∉ sys_requests (run sys later)).
Proof.
  induction later as [|a later IH]; intros sys eid r Hc Ht Hd Hr; [done|].
  change (run sys (a :: later)) with (run (step sys a) later).
  destruct a as [triggers|i w].
  - destruct (process_queue_effect triggers (sys_state sys)) as [_ _ Hc' _ _ Hf _].
    assert (Hnew : ∀ tk, tk ∈ q_tasks (process_queue (sys_state sys) triggers) →
                   t_eid tk ≠ eid).
    { intros tk (_ & _ & Hn & _)%Hf Heq. by rewrite Heq, Hc in Hn. }
    apply IH; simpl.
    + by rewrite Hc' by (by rewrite Hc).
    + intros tk [Htk|Htk]%elem_of_app; auto.
    + intros [Hin|(tk & -> & Htk)%list_elem_of_fmap]%elem_of_app; [done|].
      by apply (Hnew tk).
    + done.
  - destruct (resume_effect sys i w)
      as [->|(tk & Htk & _ & Hst & _ & Hd' & Hts & Hrs)]; [by apply IH|].
    assert (Hne : eid ≠ t_eid tk) by (intros ->; by apply (Ht tk)).
    apply IH.
    + destruct (Hst eid Hne) as [_ ->]. done.
    + intros x [Hx|Hx]%Hts; [by rewrite Hx|by apply Ht].
    + by rewrite Hd'.
    + intros [Hin|Hin]%Hrs; done.
Qed.

(** A trigger whose event is in the handled set or has a stored result
    is passed over. *)
Lemma known_event_is_skipped st t eid :
  eventid (event_of t) = Some eid →
  eid ∈ handled_events st ∨ is_Some (ai_memory_cache st !! eid) →
  process_trigger st t = {| q_state := st; q_tasks := []; q_raised := None |}.
Proof.
  intros He Hk. unfold process_trigger. rewrite (event_id_object t eid He), He.
  assert (skipped st eid = true) as ->; [|done].
  unfold skipped. destruct Hk as [Hk|Hk].
  - rewrite (bool_decide_eq_true_2 (eid ∈ handled_events st)) by done.
    by rewrite !orb_true_r.
  - rewrite (bool_decide_eq_true_2 (is_Some _)) by done. by rewrite !orb_true_r.
Qed.


(** ** The WebSocket manager *)

Section Broadcast.

Import ConnectionManager.

Lemma remove_first_middle ws kept rest :
  ws ∉ kept → remove_first ws (kept ++ ws :: rest) = kept ++ rest.
Proof.
  induction kept as [|c kept IH]; intros Hn; simpl.
  - by rewrite bool_decide_eq_true_2.
  - rewrite bool_decide_eq_false_2 by set_solver. f_equal. apply IH. set_solver.
Qed.

Lemma disconnect_middle ws kept rest :
  ws ∉ kept → disconnect ws (kept ++ ws :: rest) = kept ++ rest.
Proof.
  intros Hn. unfold disconnect. rewrite bool_decide_eq_true_2 by set_solver.
  by apply remove_first_middle.
Qed.

Lemma broadcast_loop_filter send_raises message rest : ∀ kept delivered,
  (∀ c, c ∈ kept → send_raises c message = false) →
  broadcast_loop send_raises message rest (kept ++ rest) delivered =
    (kept ++ filter (fun c => send_raises c message = false) rest,
     delivered
     ++ ((fun c => (c, message))
           <$> filter (fun c => send_raises c message = false) rest)).
Proof.
  induction rest as [|c rest IH]; intros kept delivered Hk; simpl.
  - by rewrite !app_nil_r.
  - destruct (send_raises c message) eqn:Hc.
    + rewrite disconnect_middle.
      * rewrite IH by done. by rewrite filter_cons_False by congruence.
      * intros Hin. apply Hk in Hin. congruence.
    + rewrite (cons_middle c kept rest), app_assoc, IH.
      * rewrite filter_cons_True by done. by rewrite fmap_cons, <- !app_assoc.
      * intros c' [?| ->%list_elem_of_singleton]%elem_of_app; auto.
Qed.

Lemma broadcast_filter send_raises message active :
  broadcast send_raises message active =
    (filter (fun c => send_raises c message = false) active,
     (fun c => (c, message))
       <$> filter (fun c => send_raises c message = false) active).
Proof.
  unfold broadcast.
  apply (broadcast_loop_filter send_raises message active [] []). set_solver.
Qed.

End Broadcast.

(** C9: whatever connections are registered when [broadcast] starts, a
    connection whose [send_text] raises is no longer registered when the
    call ends, and a connection whose [send_text] works has received the
    message and is still registered. *)
Theorem broadcast_prunes_failed send_raises message active c :
  c ∈ active →
  (send_raises c message = true →
   c ∉ (ConnectionManager.broadcast send_raises message active).1)
  ∧ (send_raises c message = false →
     (c, message) ∈ (ConnectionManager.broadcast send_raises message active).2
     ∧ c ∈ (ConnectionManager.broadcast send_raises message active).1).
Proof.
  intros Hc. rewrite broadcast_filter. cbn [fst snd]. split.
  - intros Hr [Hf _]%list_elem_of_filter. congruence.
  - intros Hr. split; [|by apply list_elem_of_filter].
    apply list_elem_of_fmap. exists c. split; [done|]. by apply list_elem_of_filter.
Qed.

Lemma broadcast_prunes_failed_witness :
  let send_raises := fun (c : nat) (_ : str) => Nat.eqb c 2 in
  2%nat ∈ [1; 2; 3]%nat
  ∧ send_raises 2%nat (py "{}") = true
  ∧ 2%nat ∉ (ConnectionManager.broadcast send_raises (py "{}") [1; 2; 3]%nat).1.
Proof.
  intros send_raises.
  assert (Hin : 2%nat ∈ [1; 2; 3]%nat) by (apply list_elem_of_In; simpl; tauto).
  split; [exact Hin|]. split; [reflexivity|].
  apply (broadcast_prunes_failed send_raises (py "{}") [1; 2; 3]%nat 2%nat Hin).
  reflexivity.
Defined.

Example broadcast_with_one_dead_connection :
  ConnectionManager.broadcast (fun c _ => Nat.eqb c 2) (py "{}") [1; 2; 3]%nat
  = ([1; 3]%nat, [(1%nat, py "{}"); (3%nat, py "{}")]).
Proof. reflexivity. Qed.

(** ** The snapshot *)

Section Snapshot.

Variable strftime_HM : str -> res str.

Lemma comprehension_ok {A B} (f : A -> res B) l bs :
  comprehension f l = Ok bs → Forall2 (fun a b => f a = Ok b) l bs.
Proof.
  revert bs. induction l as [|a l IH]; intros bs; simpl.
  - intros [= <-]. constructor.
  - destruct (f a) as [b|] eqn:Hb; [|done]. simpl.
    destruct (comprehension f l) as [bs'|]; [|done]. simpl.
    intros [= <-]. constructor; [done|]. by apply IH.
Qed.





Lemma comprehension_total {A B} (f : A -> res B) l :
  Forall (fun a => ∃ b, f a = Ok b) l → ∃ bs, comprehension f l = Ok bs.
Proof.
  induction 1 as [|a l [b Hb] _ [bs Hbs]]; simpl; [by eexists|].
  rewrite Hb. simpl. rewrite Hbs. by eexists.
Qed.

Lemma format_entry_total st t :
  renderable strftime_HM t → ∃ e, format_entry strftime_HM st t = Ok e.
Proof.
  intros [[id Hid] [d Hd] [p Hp] (lc & Hlc & tm & Htm) (hs & Hhs & Hh) Htags Hev].
  unfold format_entry. rewrite Hev. simpl.
  destruct (comprehension_total (tag_text (py ": ")) (take 4 (default [] (tags t))))
    as [ftags Hf].
  { apply Forall_take. eapply Forall_impl; [exact Htags|].
    intros tg [[k Hk] [v Hv]]. unfold tag_text. rewrite Hk, Hv. by eexists. }
  unfold frontend_tags. rewrite Hf, Hid, Hhs, Hd, Hp, Hlc. simpl.
  assert (∃ i, match eventid (event_of t) with
               | Some e0 => if truthy e0 then Ok e0 else Ok id
               | None => Ok id
               end = Ok i) as [i ->].
  { destruct (eventid (event_of t)) as [e0|]; [destruct (truthy e0)|]; by eexists. }
  simpl.
  assert (∃ h, match hs with
               | [] => Ok (py "?")
               | h0 :: _ => getitem (host_name h0)
               end = Ok h) as [h ->].
  { destruct hs as [|h0 ?]; [by eexists|]. destruct Hh as [n ->]. by eexists. }
  simpl. rewrite Htm. simpl. by eexists.
Qed.

Lemma dashboard_loop_total st triggers : ∀ sts formatted,
  Forall (renderable strftime_HM) triggers →
  ∃ out, dashboard_loop strftime_HM st triggers sts formatted = Ok out.
Proof.
  induction triggers as [|t rest IH]; intros sts formatted Hall; simpl.
  - by eexists.
  - apply Forall_cons in Hall as [Ht Hrest].
    destruct (r_priority _ _ Ht) as [p ->]. simpl.
    destruct (format_entry_total st t Ht) as [e ->]. simpl. by apply IH.
Qed.

(** [format_dashboard] returns a snapshot for every non-empty list of
    triggers it can render. *)
Lemma format_dashboard_total st triggers :
  triggers ≠ [] → Forall (renderable strftime_HM) triggers →
  ∃ snap, format_dashboard strftime_HM st triggers = Ok (Some snap).
Proof.
  intros Hne Hall. unfold format_dashboard. destruct triggers as [|t rest]; [done|].
  destruct (dashboard_loop_total st (t :: rest)
              {| s_total := 0; s_critical := 0; s_tokens := total_tokens_used st |}
              [] Hall) as [out ->].
  simpl. by eexists.
Qed.

End Snapshot.



Example snapshot_of_tagged_trigger :
  match format_dashboard noon initial_state [tagged_trigger] with
  | Ok (Some snap) => e_tags <$> snap_data snap
  | _ => []
  end = [[py "env: prod"; py "app: db"; py "scope"; py "team: ops"]].
Proof. vm_compute. reflexivity. Qed.

(** ** The recovery marker *)

(** C3, as the code has it: the text [zabbix_msg s a] that the
    enrichment task posts is parsed back to [s] and [a] by the recovery
    branch when neither contains the separator, [s] does not contain the
    marker, and neither starts or ends with whitespace. *)
Theorem marker_round_trip s a :
  Str.contains SEPARATOR s = false → Str.contains MARKER s = false →
  Str.strip s = s →
  Str.contains SEPARATOR a = false → Str.strip a = a →
  parse_ack (zabbix_msg s a) = Some {| summary := s; action := a |}.
Proof.
  intros Hs1 Hs2 Hs3 Ha1 Ha2. unfold parse_ack.
  rewrite split_marker_text by done. cbn [lookup list_lookup mbind option_bind].
  rewrite replace_marker_prefix by done.
  rewrite strip_padded by done. by rewrite strip_led.
Qed.

Lemma marker_round_trip_witness :
  Str.contains SEPARATOR (py "disk full") = false
  ∧ Str.contains MARKER (py "disk full") = false
  ∧ Str.strip (py "disk full") = py "disk full"
  ∧ Str.contains SEPARATOR (py "df -h") = false
  ∧ Str.strip (py "df -h") = py "df -h"
  ∧ parse_ack (zabbix_msg (py "disk full") (py "df -h"))
    = Some {| summary := py "disk full"; action := py "df -h" |}.
Proof.
  repeat (split; [reflexivity|]).
  apply (marker_round_trip (py "disk full") (py "df -h")); reflexivity.
Defined.

(** C3 as stated fails: a summary that starts with a space comes back
    without it. *)
Lemma padded_summary_is_not_restored :
  parse_ack (zabbix_msg (py " x") (py "y"))
  ≠ Some {| summary := py " x"; action := py "y" |}.
Proof. vm_compute. discriminate. Qed.

Example round_trip_loses_marker_in_summary :
  parse_ack (zabbix_msg (py "see IA: log") (py "y"))
  = Some {| summary := py "see  log"; action := py "y" |}.
Proof. reflexivity. Qed.

Example round_trip_cuts_at_separator :
  parse_ack (zabbix_msg (py "a") (py "ls | CMD: rm"))
  = Some {| summary := py "a"; action := py "ls" |}.
Proof. reflexivity. Qed.

(** ** The fallback of the enrichment *)

(** C7, as the code has it: when the request to the enrichment service
    raises or its content is not JSON, the task stores the fixed result
    ["Erro IA"] / ["N/A"] for its event, leaves every other entry and
    both sets as they are, and goes on to post the comment: nothing is
    raised. *)
Theorem fallback_on_failure st tk w :
  t_phase tk = AwaitAI → enrichment_failed (ai w) = true →
  let p := run_ai_pipeline st tk w in
  ai_memory_cache (p_state p) !! t_eid tk
    = Some {| summary := ERRO_IA; action := NA |}
  ∧ (∀ e, e ≠ t_eid tk →
       ai_memory_cache (p_state p) !! e = ai_memory_cache st !! e)
  ∧ processing_events (p_state p) = processing_events st
  ∧ handled_events (p_state p) = handled_events st
  ∧ p_task p = Some (at_phase AwaitPost tk).
Proof.
  intros Hph Hf. unfold run_ai_pipeline. rewrite Hph.
  destruct (ai w) as [|[u|] []]; try done; simpl;
    (split; [apply lookup_insert_eq|]);
    (split; [intros e He; by rewrite lookup_insert_ne|done]).
Qed.

Lemma fallback_on_failure_witness :
  t_phase (sample_task E1 AwaitAI) = AwaitAI
  ∧ enrichment_failed (ai w_failure) = true
  ∧ ai_memory_cache
      (p_state (run_ai_pipeline initial_state (sample_task E1 AwaitAI) w_failure))
      !! E1
    = Some {| summary := ERRO_IA; action := NA |}.
Proof.
  split; [reflexivity|]. split; [reflexivity|].
  apply (fallback_on_failure initial_state (sample_task E1 AwaitAI) w_failure);
    reflexivity.
Defined.

(** C7 as stated fails: what is stored after a failure is not
    ["analysis unavailable"] / ["none"]. *)
Lemma fallback_is_not_analysis_unavailable :
  ai_memory_cache
    (p_state (run_ai_pipeline initial_state (sample_task E1 AwaitAI) w_failure))
    !! E1
  ≠ Some {| summary := py "analysis unavailable"; action := py "none" |}.
Proof. vm_compute. discriminate. Qed.

(** A reply that is JSON but no object is not caught by
    [analyze_with_ai]: [ai_data.get] raises in [run_ai_pipeline], the
    error is logged and nothing is stored. *)
Example non_object_reply_stores_nothing :
  let w := {| ai := ApiReturns None JsonOther;
              post_raises := false; notify_raises := false |} in
  let p := run_ai_pipeline initial_state (sample_task E1 AwaitAI) w in
  ai_memory_cache (p_state p) !! E1 = None
  ∧ p_task p = None ∧ p_logged p = true.
Proof. vm_compute. repeat split; reflexivity. Qed.

(** ** The recovery branch *)

(** C8, as the code has it: the recovery branch inserts the parsed
    result into the result map and changes nothing else; the in-flight
    set and the handled set are both left as they were, and nothing is
    dispatched.  It is the stored result that makes the loop pass over
    the event from then on. *)
Theorem recovery_changes_only_the_cache st t eid msg :
  eventid (event_of t) = Some eid → skipped st eid = false →
  first_marked (default [] (acknowledges (event_of t))) = Some msg →
  let q := process_trigger st t in
  ai_memory_cache (q_state q) = <[eid := marker_fields msg]> (ai_memory_cache st)
  ∧ processing_events (q_state q) = processing_events st
  ∧ handled_events (q_state q) = handled_events st
  ∧ total_tokens_used (q_state q) = total_tokens_used st
  ∧ q_tasks q = [] ∧ q_raised q = None
  ∧ ∀ t', eventid (event_of t') = Some eid →
          process_trigger (q_state q) t'
          = {| q_state := q_state q; q_tasks := []; q_raised := None |}.
Proof.
  intros He Hsk Hm. simpl. rewrite (process_trigger_recovers st t eid msg) by done.
  simpl. repeat split; try done.
  intros t' He'. apply (known_event_is_skipped _ t' eid He'). right. simpl.
  rewrite lookup_insert_eq. by eexists.
Qed.

Lemma recovery_changes_only_the_cache_witness :
  eventid (event_of (acked_trigger E2 "IA: cpu spike | CMD: top")) = Some E2
  ∧ skipped initial_state E2 = false
  ∧ first_marked (default [] (acknowledges
        (event_of (acked_trigger E2 "IA: cpu spike | CMD: top"))))
    = Some (py "IA: cpu spike | CMD: top")
  ∧ handled_events
      (q_state (process_trigger initial_state
                  (acked_trigger E2 "IA: cpu spike | CMD: top")))
    = handled_events initial_state.
Proof.
  split; [reflexivity|]. split; [vm_compute; reflexivity|].
  split; [reflexivity|].
  apply (recovery_changes_only_the_cache initial_state
           (acked_trigger E2 "IA: cpu spike | CMD: top") E2
           (py "IA: cpu spike | CMD: top"));
    [reflexivity | vm_compute; reflexivity | reflexivity].
Defined.

(** C8 as stated fails: after the recovery branch has stored a result
    for an event, the event is not in the handled set. *)
Lemma recovered_is_not_marked_handled :
  let q := process_queue initial_state
             [acked_trigger E2 "IA: cpu spike | CMD: top"] in
  ai_memory_cache (q_state q) !! E2
    = Some {| summary := py "cpu spike"; action := py "top" |}
  ∧ (E2 ∉ handled_events (q_state q)).
Proof.
  split; [vm_compute; reflexivity|].
  apply (bool_decide_eq_false_1 (E2 ∈ _)). vm_compute. reflexivity.
Qed.

(** ** Triggers with missing fields *)

(** A trigger whose event object has no event identifier, or an empty
    one, is passed over: nothing changes and nothing is raised. *)
Lemma missing_event_id_is_skipped st t :
  no_object t = false →
  eventid (event_of t) = None ∨ eventid (event_of t) = Some [] →
  process_trigger st t = {| q_state := st; q_tasks := []; q_raised := None |}.
Proof. unfold process_trigger. by intros -> [-> | ->]. Qed.

Lemma missing_event_id_leaves_the_rest st t rest :
  no_object t = false →
  eventid (event_of t) = None ∨ eventid (event_of t) = Some [] →
  process_queue st (t :: rest) = process_queue st rest.
Proof.
  intros Ho H. simpl. rewrite (missing_event_id_is_skipped st t Ho H). simpl.
  by destruct (process_queue st rest).
Qed.

(** A trigger whose ['lastEvent'] is no object raises at [ev.get], before
    anything is changed. *)
Lemma process_trigger_no_object st t :
  no_object t = true →
  process_trigger st t
  = {| q_state := st; q_tasks := []; q_raised := Some AttributeError |}.
Proof. unfold process_trigger. by intros ->. Qed.

(** A trigger that would be dispatched and whose list of hosts is empty
    leaves its event in both sets and raises. *)
Lemma process_trigger_hostless st t eid :
  eventid (event_of t) = Some eid → skipped st eid = false →
  first_marked (default [] (acknowledges (event_of t))) = None →
  is_Some (description t) → hosts t = Some [] →
  process_trigger st t
  = {| q_state := set_handled (union {[eid]}) (set_processing (union {[eid]}) st);
       q_tasks := []; q_raised := Some IndexError |}.
Proof.
  intros He Hsk Hm [d Hd] Hh. unfold process_trigger, task_of.
  by rewrite (event_id_object t eid He), He, Hsk, Hm, Hd, Hh.
Qed.

(** C6 fails on the code for a trigger whose list of hosts is empty:
    [process_queue] has already put its event into both sets when
    [t['hosts'][0]] raises [IndexError]; the exception leaves the loop,
    so the trigger that follows, which alone would be dispatched, is not
    looked at. *)
Theorem hostless_trigger_aborts_the_batch :
  let q := process_queue initial_state [hostless_trigger E1; fresh_trigger E2] in
  q_raised q = Some IndexError
  ∧ q_tasks q = []
  ∧ E1 ∈ processing_events (q_state q)
  ∧ (E2 ∉ handled_events (q_state q))
  ∧ q_tasks (process_queue initial_state [fresh_trigger E2])
    = [sample_task E2 Created].
Proof.
  split; [vm_compute; reflexivity|]. split; [vm_compute; reflexivity|].
  split; [|split]; [| |vm_compute; reflexivity].
  - apply (bool_decide_eq_true_1 (E1 ∈ _)). vm_compute. reflexivity.
  - apply (bool_decide_eq_false_1 (E2 ∈ _)). vm_compute. reflexivity.
Qed.

(** ** The in-flight set *)

Lemma drive_returns ws : ∀ st tk,
  (4 - phase_rank (t_phase tk) ≤ length ws)%nat →
  ∃ st', drive st tk ws = (st', None) ∧ t_eid tk ∉ processing_events st'.
Proof.
  induction ws as [|w ws IH]; intros st tk Hlen.
  - destruct (t_phase tk); simpl in Hlen; lia.
  - cbn [drive].
    destruct (run_ai_pipeline_resumed st tk w)
      as [st1 _ Hst -> _ _ | Hph Hst -> _ | st1 r Hph _ Hst -> _ | Hph Hst -> _].
    + eexists. split; [done|]. rewrite Hst. simpl. set_solver.
    + apply (IH _ (at_phase AwaitAI tk)). rewrite Hph in Hlen. simpl in *. lia.
    + apply (IH _ (at_phase AwaitPost tk)). rewrite Hph in Hlen. simpl in *. lia.
    + apply (IH _ (at_phase AwaitNotify tk)). rewrite Hph in Hlen. simpl in *. lia.
Qed.

(** Every enrichment task returns after at most four resumptions,
    whatever its external calls do, and its event is then out of the
    in-flight set. *)
Lemma task_clears_in_flight st tk w1 w2 w3 w4 :
  ∃ st', drive st tk [w1; w2; w3; w4] = (st', None)
         ∧ t_eid tk ∉ processing_events st'.
Proof. apply drive_returns. destruct (t_phase tk); simpl; lia. Qed.

(** C5 fails on the code for a trigger whose list of hosts is empty:
    [process_queue] puts the event into the in-flight set and then
    raises before [create_task], so no task exists whose [finally]
    clause would take it out; whatever the process does afterwards, the
    event stays in flight and is never dispatched. *)
Theorem hostless_event_stays_in_flight later :
  let sys := run boot (Cycle [hostless_trigger E1] :: later) in
  E1 ∈ processing_events (sys_state sys) ∧ (E1 ∉ sys_dispatched sys).
Proof.
  change (run boot (Cycle [hostless_trigger E1] :: later))
    with (run (step boot (Cycle [hostless_trigger E1])) later).
  assert (Hp : E1 ∈ processing_events
                      (sys_state (step boot (Cycle [hostless_trigger E1]))))
    by (apply (bool_decide_eq_true_1 (E1 ∈ _)); vm_compute; reflexivity).
  assert (Hh : E1 ∈ handled_events
                      (sys_state (step boot (Cycle [hostless_trigger E1]))))
    by (apply (bool_decide_eq_true_1 (E1 ∈ _)); vm_compute; reflexivity).
  split.
  - apply stranded_stays; [done|done|]. intros tk Htk. by apply elem_of_nil in Htk.
  - destruct (run_dispatches_unknown later
                (step boot (Cycle [hostless_trigger E1])) E1 (or_introl Hh))
      as (new & -> & Hnew).
    done.
Qed.

(** ** At most one dispatch *)


(** C1: in every run of the process the list of dispatched events and
    the list of requests to the enrichment service have no duplicates,
    every dispatched event is in the handled set, and an event that is
    in the handled set or has a stored result is not among the events
    dispatched later, whatever triggers the later cycles see. *)
Theorem at_most_once_dispatch trace :
  NoDup (sys_dispatched (run boot trace))
  ∧ NoDup (sys_requests (run boot trace))
  ∧ (∀ eid, eid ∈ sys_dispatched (run boot trace) →
       eid ∈ handled_events (sys_state (run boot trace)))
  ∧ (∀ eid later,
       eid ∈ handled_events (sys_state (run boot trace))
       ∨ is_Some (ai_memory_cache (sys_state (run boot trace)) !! eid) →
       ∃ new, sys_dispatched (run boot (trace ++ later))
              = sys_dispatched (run boot trace) ++ new
              ∧ eid ∉ new).
Proof.
  destruct (sys_inv_run trace boot sys_inv_boot) as [Hd Hh _ _ Hr _ _ _].
  repeat split; try done.
  intros eid later Hk. rewrite run_app. by apply run_dispatches_unknown.
Qed.

Lemma at_most_once_dispatch_witness :
  E1 ∈ handled_events
         (sys_state (run boot [Cycle [fresh_trigger E1]; Resume 0 w_answer]))
  ∧ ∃ new,
      sys_dispatched (run boot ([Cycle [fresh_trigger E1]; Resume 0 w_answer]
                                ++ [Cycle [fresh_trigger E1; fresh_trigger E2]]))
      = sys_dispatched (run boot [Cycle [fresh_trigger E1]; Resume 0 w_answer])
        ++ new
      ∧ E1 ∉ new.
Proof.
  assert (Hh : E1 ∈ handled_events
                 (sys_state (run boot [Cycle [fresh_trigger E1]; Resume 0 w_answer])))
    by (apply (bool_decide_eq_true_1 (E1 ∈ _)); vm_compute; reflexivity).
  split; [exact Hh|].
  destruct (at_most_once_dispatch [Cycle [fresh_trigger E1]; Resume 0 w_answer])
    as (_ & _ & _ & H).
  exact (H E1 [Cycle [fresh_trigger E1; fresh_trigger E2]] (or_introl Hh)).
Defined.

Example second_cycle_dispatches_only_the_new_event :
  sys_dispatched (run boot [Cycle [fresh_trigger E1]; Resume 0 w_answer;
                            Cycle [fresh_trigger E1; fresh_trigger E2]])
  = [E1; E2].
Proof. vm_compute. reflexivity. Qed.

(** ** In flight and stored *)




Example snapshot_during_overlap :
  let sys := run boot [Cycle [fresh_trigger E1]; Resume 0 w_answer;
                       Resume 0 w_answer] in
  match format_dashboard noon (sys_state sys) [fresh_trigger E1] with
  | Ok (Some snap) =>
      (fun e => (e_ai_summary e, e_ai_action e)) <$> snap_data snap
      = [(py "disk full", Some (py "df -h"))]
  | _ => False
  end.
Proof. vm_compute. reflexivity. Qed.


(** ** Recovery from an acknowledgement *)

(** C2, as the code has it: when a cycle meets, for the first time, a
    trigger whose event carries an acknowledgement with the marker, the
    result stored for the event is the parsed text of the first such
    acknowledgement — the summary is the text before the first
    separator without any occurrence of the marker, trimmed; the action
    is the text between the first and the second separator, trimmed, or
    ["N/A"] without a separator — and the event is never dispatched nor
    sent to the enrichment service afterwards. *)
Theorem recovery_suppresses_dispatch trace before t after later eid msg :
  skipped (sys_state (run boot trace)) eid = false →
  q_raised (process_queue (sys_state (run boot trace)) before) = None →
  Forall (fun t' => eventid (event_of t') ≠ Some eid) before →
  eventid (event_of t) = Some eid →
  first_marked (default [] (acknowledges (event_of t))) = Some msg →
  let sys := run boot (trace ++ Cycle (before ++ t :: after) :: later) in
  ai_memory_cache (sys_state sys) !! eid = Some (marker_fields msg)
  ∧ (eid ∉ sys_dispatched sys)
  ∧ (eid ∉ sys_requests sys).
Proof.
  intros Hsk Hr Hb He Hm. simpl. rewrite run_app.
  change (run (run boot trace) (Cycle (before ++ t :: after) :: later))
    with (run (step (run boot trace) (Cycle (before ++ t :: after))) later).
  destruct (sys_inv_run trace boot sys_inv_boot) as [_ Hh Ht _ _ Hrs _ _].
  destruct (cycle_recovers _ before t after eid msg Hsk Hr Hb He Hm) as [Hc Hnew].
  apply skipped_false in Hsk as (_ & _ & Hnh & _).
  apply recovered_stays; simpl.
  - done.
  - intros tk [Htk|Htk]%elem_of_app; [|by apply Hnew].
    intros Heq. apply Hnh, Hh. rewrite <- Heq. by apply Ht.
  - intros [Hin|(tk & -> & Htk)%list_elem_of_fmap]%elem_of_app.
    + by apply Hnh, Hh.
    + by apply (Hnew tk).
  - intros Hin. by apply Hnh, Hh, Hrs.
Qed.

Lemma recovery_suppresses_dispatch_witness :
  let t := acked_trigger E2 "IA: cpu spike | CMD: top" in
  skipped (sys_state (run boot [])) E2 = false
  ∧ q_raised (process_queue (sys_state (run boot [])) [fresh_trigger E1]) = None
  ∧ Forall (fun t' => eventid (event_of t') ≠ Some E2) [fresh_trigger E1]
  ∧ eventid (event_of t) = Some E2
  ∧ first_marked (default [] (acknowledges (event_of t)))
    = Some (py "IA: cpu spike | CMD: top")
  ∧ ai_memory_cache
      (sys_state (run boot ([] ++ Cycle ([fresh_trigger E1] ++ t :: [])
                                 :: [Cycle [fresh_trigger E2]])))
      !! E2
    = Some (marker_fields (py "IA: cpu spike | CMD: top")).
Proof.
  intros t.
  assert (Hb : Forall (fun t' => eventid (event_of t') ≠ Some E2) [fresh_trigger E1])
    by (repeat constructor; discriminate).
  split; [vm_compute; reflexivity|]. split; [vm_compute; reflexivity|].
  split; [exact Hb|]. split; [reflexivity|]. split; [reflexivity|].
  apply (recovery_suppresses_dispatch [] [fresh_trigger E1] t []
           [Cycle [fresh_trigger E2]] E2 (py "IA: cpu spike | CMD: top"));
    [vm_compute; reflexivity | vm_compute; reflexivity | exact Hb
    | reflexivity | reflexivity].
Defined.

Example recovered_fields_of_the_sample :
  marker_fields (py "IA: cpu spike | CMD: top")
  = {| summary := py "cpu spike"; action := py "top" |}.
Proof. reflexivity. Qed.

(** C2 as stated fails: for an acknowledgement with two separators the
    stored action is the text between them, not the text after the
    separator. *)
Lemma recovery_of_two_separators :
  let msg := "IA: a | CMD: b | CMD: c"%string in
  let q := process_queue initial_state [acked_trigger E2 msg] in
  ai_memory_cache (q_state q) !! E2
    = Some {| summary := py "a"; action := py "b" |}
  ∧ two_part_fields (py msg)
    = {| summary := py "a"; action := py "b | CMD: c" |}
  ∧ ai_memory_cache (q_state q) !! E2 ≠ Some (two_part_fields (py msg)).
Proof.
  split; [vm_compute; reflexivity|]. split; [vm_compute; reflexivity|].
  vm_compute. discriminate.
Qed.

Example recovery_removes_every_marker :
  marker_fields (py "IA: a IA: b | CMD: c")
  = {| summary := py "a  b"; action := py "c" |}
  ∧ two_part_fields (py "IA: a IA: b | CMD: c")
    = {| summary := py "a IA: b"; action := py "c" |}.
Proof. split; reflexivity. Qed.

(** ** Two scenarios of the specification *)

(** A trigger without acknowledgements is dispatched; when its task has
    returned, the result is stored, the in-flight set is empty, the
    marker text has been handed to the backend, and the snapshot shows
    the result and counts the trigger as critical. *)
Example scenario_dispatch :
  let sys := run boot [Cycle [fresh_trigger E1]; Resume 0 w_answer;
                       Resume 0 w_answer; Resume 0 w_answer; Resume 0 w_answer] in
  sys_tasks sys = []
  ∧ elements (processing_events (sys_state sys)) = []
  ∧ sys_requests sys = [E1]
  ∧ sys_posted sys = [(E1, py "IA: disk full | CMD: df -h")]
  ∧ total_tokens_used (sys_state sys) = 42
  ∧ match format_dashboard noon (sys_state sys) [fresh_trigger E1] with
    | Ok (Some snap) =>
        s_critical (snap_stats snap) = 1
        ∧ (fun e => (e_ai_summary e, e_ai_action e)) <$> snap_data snap
          = [(py "disk full", Some (py "df -h"))]
    | _ => False
    end.
Proof. vm_compute. repeat split; reflexivity. Qed.

(** After a restart, the text posted by the earlier run is parsed back
    and nothing is dispatched. *)
Example scenario_recovery :
  let q := process_queue initial_state
             [acked_trigger E1 "IA: disk full | CMD: df -h"] in
  q_tasks q = []
  ∧ ai_memory_cache (q_state q) !! E1
    = Some {| summary := py "disk full"; action := py "df -h" |}.
Proof. vm_compute. split; reflexivity. Qed.

(** * Further properties *)

(** ** Resumptions *)

Lemma analyze_with_ai_tokens st r :
  total_tokens_used st ≤ total_tokens_used (analyze_with_ai st r).1.
Proof. destruct r as [|[u|] []]; simpl; lia. Qed.

Lemma run_ai_pipeline_resumption st tk w :
  resumption st tk (run_ai_pipeline st tk w).
Proof.
  unfold run_ai_pipeline. destruct (t_phase tk) eqn:Hph.
  - destruct (format_tags_text (t_tags tk)).
    + by apply resumption_start.
    + by eapply (resumption_end _ _ _ st).
  - pose proof (analyze_with_ai_sets st (ai w)) as Hs.
    pose proof (analyze_with_ai_tokens st (ai w)) as Ht.
    destruct (analyze_with_ai st (ai w)) as [st1 [a c|]]; simpl in Hs, Ht.
    + by eapply (resumption_store _ _ _ st1
                   {| summary := default INDISPONIVEL a; action := default NA c |}).
    + by eapply (resumption_end _ _ _ st1).
  - destruct (post_raises w).
    + by eapply (resumption_end _ _ _ st).
    + by apply resumption_post.
  - destruct (notify_raises w); by eapply (resumption_end _ _ _ st).
Qed.

(** ** More invariants of the process *)

Lemma process_trigger_flight st t :
  (∀ tk, tk ∈ q_tasks (process_trigger st t) →
     t_eid tk ∈ processing_events (q_state (process_trigger st t)))
  ∧ (processing_events st ⊆ handled_events st →
     processing_events (q_state (process_trigger st t))
     ⊆ handled_events (q_state (process_trigger st t))).
Proof.
  unfold process_trigger.
  assert (Hnil : ∀ (tk : task) (X : gset str), tk ∈ [] → t_eid tk ∈ X)
    by (intros tk X Htk; by apply elem_of_nil in Htk).
  destruct (no_object t); [split; [intros tk0; apply Hnil|done]|].
  destruct (eventid (event_of t)) as [eid|]; [|split; [intros tk0; apply Hnil|done]].
  destruct (skipped st eid); [split; [intros tk0; apply Hnil|done]|].
  destruct (first_marked _) as [msg|].
  - destruct (parse_ack msg); (split; [intros tk0; apply Hnil|done]).
  - destruct (task_of eid t) as [tk|] eqn:Htk; simpl; (split; [|set_solver]).
    + apply task_of_eid in Htk as [<- _].
      intros tk' ->%list_elem_of_singleton. set_solver.
    + intros tk0; apply Hnil.
Qed.

Lemma process_queue_flight triggers : ∀ st,
  (∀ tk, tk ∈ q_tasks (process_queue st triggers) →
     t_eid tk ∈ processing_events (q_state (process_queue st triggers)))
  ∧ (processing_events st ⊆ handled_events st →
     processing_events (q_state (process_queue st triggers))
     ⊆ handled_events (q_state (process_queue st triggers))).
Proof.
  induction triggers as [|t rest IH]; intros st; simpl.
  - split; [|done]. intros tk Htk. by apply elem_of_nil in Htk.
  - destruct (process_trigger_flight st t) as [Hf Hh].
    destruct (q_raised (process_trigger st t)); [done|].
    destruct (IH (q_state (process_trigger st t))) as [Hf' Hh'].
    destruct (process_queue_effect rest (q_state (process_trigger st t)))
      as [Hp _ _ _ _ _ _].
    simpl. split; [|auto].
    intros tk [Htk|Htk]%elem_of_app; [|by apply Hf']. by apply Hp, Hf.
Qed.

Lemma sys_inv2_boot : sys_inv2 boot.
Proof.
  split; simpl; try done.
  - intros tk Htk. by apply elem_of_nil in Htk.
  - intros e m Hm. by apply elem_of_nil in Hm.
  - intros tk Htk. by apply elem_of_nil in Htk.
  - apply NoDup_nil_2.
Qed.

Lemma posted_dispatched sys e :
  sys_inv2 sys → e ∈ (sys_posted sys).*1 → e ∈ sys_dispatched sys.
Proof.
  intros [_ _ Hp _ _] ([e' m] & -> & Hm)%list_elem_of_fmap.
  by apply Hp in Hm as [? _].
Qed.

Lemma sys_inv2_cycle sys triggers :
  sys_inv sys → sys_inv2 sys → sys_inv2 (step sys (Cycle triggers)).
Proof.
  intros Hinv Hinv2.
  pose proof (posted_dispatched sys) as Hpd.
  destruct Hinv as [_ Hdh _ _ _ _ _ _]. destruct Hinv2 as [Hfl Hph Hpo Hea Hnd].
  destruct (process_queue_effect triggers (sys_state sys)) as [Hp _ Hc _ _ Hf _].
  destruct (process_queue_flight triggers (sys_state sys)) as [Hnew Hsub].
  split; simpl.
  - intros tk [Htk|Htk]%elem_of_app; [by apply Hp, Hfl|by apply Hnew].
  - by apply Hsub.
  - intros e m Hm. destruct (Hpo e m Hm) as (Hd & r & Hr & ->).
    split; [apply elem_of_app; by left|].
    exists r. split; [|done]. rewrite Hc; [done|by rewrite Hr].
  - intros tk [Htk|Htk]%elem_of_app Hb; [by apply Hea|].
    apply Hf in Htk as (_ & Hn & _). intros Hin. apply Hn, Hdh, Hpd; [|done].
    by split.
  - done.
Qed.

Lemma sys_inv2_resume sys i w :
  sys_inv sys → sys_inv2 sys → sys_inv2 (step sys (Resume i w)).
Proof.
  intros Hinv Hinv2. simpl.
  destruct (sys_tasks sys !! i) as [tk|] eqn:Hi; [|done].
  destruct Hinv as [_ _ Hts Hnd _ _ _ _]. destruct Hinv2 as [Hfl Hph Hpo Hea Hpn].
  destruct (tasks_middle _ _ _ Hi) as (l1 & l2 & Hl & Hins & Hdel).
  rewrite Hl in *. clear Hl Hi.
  pose proof (others_differ _ _ _ Hnd) as Hoth.
  assert (Htk : tk ∈ l1 ++ tk :: l2) by (apply elem_of_middle; by left).
  assert (Hold : ∀ x, x ∈ l1 ++ l2 → x ∈ l1 ++ tk :: l2)
    by (intros x Hx; apply elem_of_middle; by right).
  destruct (run_ai_pipeline_resumption (sys_state sys) tk w)
    as [st1 (Hs1 & Hs2 & Hs3) _ -> -> -> -> | Hph' -> | st1 r Hph' (Hs1 & Hs2 & Hs3) _ ->
       | Hph' ->];
    cbn [suspended p_state p_task p_requests p_posted];
    rewrite ?app_nil_r, ?Hdel, ?Hins; split; simpl; rewrite ?Hs1, ?Hs2, ?Hs3;
    try done.
  - intros x Hx. apply elem_of_difference. split; [by apply Hfl, Hold|].
    intros ?%elem_of_singleton. by apply (Hoth x).
  - set_solver.
  - intros x Hx Hb. apply Hea; [by apply Hold|done].
  - intros x [->|Hx]%elem_of_middle; [by apply (Hfl tk)|by apply Hfl, Hold].
  - intros x [->|Hx]%elem_of_middle Hb; [|apply Hea; [by apply Hold|done]].
    apply (Hea tk); [done|]. unfold before_store. by rewrite Hph'.
  - intros x [->|Hx]%elem_of_middle; [by apply (Hfl tk)|by apply Hfl, Hold].
  - assert (Hfresh : t_eid tk ∉ (sys_posted sys).*1).
    { apply Hea; [done|]. unfold before_store. by rewrite Hph'. }
    intros e m [Hm| [= -> ->]%list_elem_of_singleton]%elem_of_app.
    + destruct (Hpo e m Hm) as (Hd & r' & Hr' & ->). split; [done|].
      exists r'. split; [|done]. rewrite lookup_insert_ne; [done|].
      intros <-. apply Hfresh. apply list_elem_of_fmap. by eexists (_, _).
    + split; [by apply Hts|]. exists r. by rewrite lookup_insert_eq.
  - intros x [->|Hx]%elem_of_middle Hb; [done|].
    rewrite fmap_app. intros [Hin| Hin%list_elem_of_singleton]%elem_of_app.
    + revert Hin. apply Hea; [by apply Hold|done].
    + by apply (Hoth x).
  - rewrite fmap_app. apply NoDup_app. split; [done|].
    split; [|apply NoDup_singleton].
    intros e He ->%list_elem_of_singleton. revert He. apply Hea; [done|].
    unfold before_store. by rewrite Hph'.
  - intros x [->|Hx]%elem_of_middle; [by apply (Hfl tk)|by apply Hfl, Hold].
  - intros x [->|Hx]%elem_of_middle Hb; [done|apply Hea; [by apply Hold|done]].
Qed.

Lemma sys_invs_run trace : ∀ sys,
  sys_inv sys → sys_inv2 sys → sys_inv (run sys trace) ∧ sys_inv2 (run sys trace).
Proof.
  induction trace as [|a trace IH]; intros sys Hinv Hinv2; [done|].
  change (run sys (a :: trace)) with (run (step sys a) trace).
  apply IH; destruct a.
  - by apply sys_inv_cycle.
  - by apply sys_inv_resume.
  - by apply sys_inv2_cycle.
  - by apply sys_inv2_resume.
Qed.

Lemma unstored_cycle sys triggers :
  sys_inv2 sys → unstored sys → unstored (step sys (Cycle triggers)).
Proof.
  intros [Hfl _ _ _ _] Hun tk Htk Hb. simpl in *.
  destruct (process_queue_effect triggers (sys_state sys)) as [Hp _ _ _ _ Hf Ho].
  destruct (process_queue_flight triggers (sys_state sys)) as [Hnew _].
  apply eq_None_not_Some. intros Hs.
  apply elem_of_app in Htk as [Htk|Htk].
  - destruct (Ho (t_eid tk)) as [_ Hs']; [by apply Hp, Hfl|done|].
    rewrite (Hun tk Htk Hb) in Hs'. by destruct Hs'.
  - destruct (Ho (t_eid tk)) as [_ Hs']; [by apply Hnew|done|].
    apply Hf in Htk as (_ & _ & Hn & _). rewrite Hn in Hs'. by destruct Hs'.
Qed.

Lemma unstored_resume sys i w :
  sys_inv sys → unstored sys → unstored (step sys (Resume i w)).
Proof.
  intros [_ _ _ Hnd _ _ _ _] Hun. unfold unstored in *. simpl.
  destruct (sys_tasks sys !! i) as [tk|] eqn:Hi; [|done].
  destruct (tasks_middle _ _ _ Hi) as (l1 & l2 & Hl & Hins & Hdel).
  rewrite Hl in *. clear Hl Hi.
  pose proof (others_differ _ _ _ Hnd) as Hoth.
  assert (Htk : tk ∈ l1 ++ tk :: l2) by (apply elem_of_middle; by left).
  assert (Hold : ∀ x, x ∈ l1 ++ l2 → x ∈ l1 ++ tk :: l2)
    by (intros x Hx; apply elem_of_middle; by right).
  destruct (run_ai_pipeline_resumption (sys_state sys) tk w)
    as [st1 (Hs1 & Hs2 & Hs3) _ -> -> -> -> | Hph' -> | st1 r Hph' (Hs1 & Hs2 & Hs3) _ ->
       | Hph' ->];
    cbn [suspended p_state p_task p_requests p_posted];
    rewrite ?Hdel, ?Hins; simpl; rewrite ?Hs3.
  - intros x Hx Hb. apply Hun; [by apply Hold|done].
  - intros x [->|Hx]%elem_of_middle Hb.
    + apply (Hun tk); [done|]. unfold before_store. by rewrite Hph'.
    + apply Hun; [by apply Hold|done].
  - intros x [->|Hx]%elem_of_middle Hb; [done|].
    rewrite lookup_insert_ne; [apply Hun; [by apply Hold|done]|].
    intros He. by apply (Hoth x).
  - intros x [->|Hx]%elem_of_middle Hb; [done|]. apply Hun; [by apply Hold|done].
Qed.

Lemma invariants_run trace : ∀ sys,
  sys_inv sys → sys_inv2 sys → unstored sys →
  sys_inv (run sys trace) ∧ sys_inv2 (run sys trace) ∧ unstored (run sys trace).
Proof.
  induction trace as [|a trace IH]; intros sys Hinv Hinv2 Hun; [done|].
  change (run sys (a :: trace)) with (run (step sys a) trace).
  apply IH; destruct a.
  - by apply sys_inv_cycle.
  - by apply sys_inv_resume.
  - by apply sys_inv2_cycle.
  - by apply sys_inv2_resume.
  - by apply unstored_cycle.
  - by apply unstored_resume.
Qed.

Lemma invariants_reachable trace :
  sys_inv (run boot trace) ∧ sys_inv2 (run boot trace) ∧ unstored (run boot trace).
Proof.
  apply invariants_run; [apply sys_inv_boot|apply sys_inv2_boot|].
  intros tk Htk. by apply elem_of_nil in Htk.
Qed.

Lemma nodup_fmap_eq {A B} (f : A -> B) (l : list A) x y :
  NoDup (f <$> l) → x ∈ l → y ∈ l → f x = f y → x = y.
Proof.
  intros Hn [i Hi]%list_elem_of_lookup [j Hj]%list_elem_of_lookup Hf.
  assert (i = j) as ->; [|congruence].
  apply (NoDup_lookup (f <$> l) i j (f x)); [done| |].
  - by rewrite list_lookup_fmap, Hi.
  - by rewrite list_lookup_fmap, Hj, Hf.
Qed.

(** X1: at every point of every run, a task that has not returned is
    the only task of its event, and its event is in the in-flight set,
    in the handled set and in the dispatch log. *)
Theorem pending_task_is_in_flight trace tk :
  tk ∈ sys_tasks (run boot trace) →
  t_eid tk ∈ processing_events (sys_state (run boot trace))
  ∧ t_eid tk ∈ handled_events (sys_state (run boot trace))
  ∧ t_eid tk ∈ sys_dispatched (run boot trace)
  ∧ ∀ tk', tk' ∈ sys_tasks (run boot trace) → t_eid tk' = t_eid tk → tk' = tk.
Proof.
  intros Htk.
  destruct (invariants_reachable trace) as ([_ Hh Ht Hn _ _ _ _] & [Hf _ _ _ _] & _).
  repeat split; [by apply Hf|by apply Hh, Ht|by apply Ht|].
  intros tk' Htk' He. by apply (nodup_fmap_eq t_eid (sys_tasks (run boot trace))).
Qed.

Lemma pending_task_is_in_flight_witness :
  sample_task E1 Created ∈ sys_tasks (run boot [Cycle [fresh_trigger E1]])
  ∧ E1 ∈ processing_events (sys_state (run boot [Cycle [fresh_trigger E1]])).
Proof.
  assert (H : sample_task E1 Created
              ∈ sys_tasks (run boot [Cycle [fresh_trigger E1]]))
    by (apply list_elem_of_In; left; vm_compute; reflexivity).
  split; [exact H|].
  exact (proj1 (pending_task_is_in_flight [Cycle [fresh_trigger E1]]
                  (sample_task E1 Created) H)).
Defined.

(** X2: at every point of every run, a comment handed to
    [post_zabbix_comment] is for a dispatched event, it is the marker
    text of the result stored for that event, and no event has two
    comments. *)
Theorem posted_comment_matches_cache trace e m :
  (e, m) ∈ sys_posted (run boot trace) →
  e ∈ sys_dispatched (run boot trace)
  ∧ (∃ r, ai_memory_cache (sys_state (run boot trace)) !! e = Some r
          ∧ m = zabbix_msg (summary r) (action r))
  ∧ ∀ m', (e, m') ∈ sys_posted (run boot trace) → m' = m.
Proof.
  intros Hm.
  destruct (invariants_reachable trace) as (_ & [_ _ Hp _ Hn] & _).
  destruct (Hp e m Hm) as [Hd Hr]. repeat split; [done|done|].
  intros m' Hm'.
  assert ((e, m') = (e, m)) as [= ->]; [|done].
  by apply (nodup_fmap_eq fst (sys_posted (run boot trace))).
Qed.

Lemma posted_comment_matches_cache_witness :
  let trace := [Cycle [fresh_trigger E1]; Resume 0 w_answer; Resume 0 w_answer] in
  (E1, py "IA: disk full | CMD: df -h") ∈ sys_posted (run boot trace)
  ∧ E1 ∈ sys_dispatched (run boot trace).
Proof.
  intros trace.
  assert (H : (E1, py "IA: disk full | CMD: df -h") ∈ sys_posted (run boot trace))
    by (apply list_elem_of_In; left; vm_compute; reflexivity).
  split; [exact H|].
  exact (proj1 (posted_comment_matches_cache trace E1 _ H)).
Defined.

Lemma stored_result_stays later : ∀ sys e r,
  sys_inv sys → sys_inv2 sys → unstored sys →
  ai_memory_cache (sys_state sys) !! e = Some r →
  ai_memory_cache (sys_state (run sys later)) !! e = Some r.
Proof.
  induction later as [|a later IH]; intros sys e r Hinv Hinv2 Hun Hr; [done|].
  change (run sys (a :: later)) with (run (step sys a) later).
  destruct (invariants_run [a] sys Hinv Hinv2 Hun) as (Hinv' & Hinv2' & Hun').
  apply IH; try done. clear IH Hinv' Hinv2' Hun'.
  destruct a as [triggers|i w]; simpl.
  - destruct (process_queue_effect triggers (sys_state sys)) as [_ _ Hc _ _ _ _].
    rewrite Hc; [done|by rewrite Hr].
  - destruct (sys_tasks sys !! i) as [tk|] eqn:Hi; [|done].
    apply list_elem_of_lookup_2 in Hi.
    destruct (run_ai_pipeline_resumption (sys_state sys) tk w)
      as [st1 (_ & _ & Hs3) _ -> _ _ _ | Hph' -> | st1 r' Hph' (_ & _ & Hs3) _ ->
         | Hph' ->]; simpl; rewrite ?Hs3; try done.
    rewrite lookup_insert_ne; [done|]. intros He.
    rewrite <- He, (Hun tk Hi) in Hr; [done|]. unfold before_store. by rewrite Hph'.
Qed.

(** X3: a result, once stored for an event, is never replaced or
    removed, whatever cycles and tasks run afterwards. *)
Theorem stored_result_never_changes trace later e r :
  ai_memory_cache (sys_state (run boot trace)) !! e = Some r →
  ai_memory_cache (sys_state (run boot (trace ++ later))) !! e = Some r.
Proof.
  intros Hr. rewrite run_app.
  destruct (invariants_reachable trace) as (Hinv & Hinv2 & Hun).
  by apply stored_result_stays.
Qed.

Lemma stored_result_never_changes_witness :
  let trace := [Cycle [acked_trigger E2 "IA: cpu spike | CMD: top"]] in
  let later := [Cycle [acked_trigger E2 "IA: other | CMD: ls"]] in
  ai_memory_cache (sys_state (run boot trace)) !! E2
    = Some {| summary := py "cpu spike"; action := py "top" |}
  ∧ ai_memory_cache (sys_state (run boot (trace ++ later))) !! E2
    = Some {| summary := py "cpu spike"; action := py "top" |}.
Proof.
  intros trace later.
  assert (H : ai_memory_cache (sys_state (run boot trace)) !! E2
              = Some {| summary := py "cpu spike"; action := py "top" |})
    by (vm_compute; reflexivity).
  split; [exact H|].
  exact (stored_result_never_changes trace later E2 _ H).
Defined.

(** X4: an event identifier, once in the handled set, stays in it:
    nothing in the process removes from [handled_events]. *)
Theorem handled_is_forever sys later e :
  e ∈ handled_events (sys_state sys) →
  e ∈ handled_events (sys_state (run sys later)).
Proof.
  revert sys. induction later as [|a later IH]; intros sys He; [done|].
  change (run sys (a :: later)) with (run (step sys a) later).
  apply IH. destruct a as [triggers|i w].
  - destruct (process_queue_effect triggers (sys_state sys)) as [_ Hh _ _ _ _ _].
    by apply Hh.
  - destruct (resume_effect sys i w) as [->|(tk & _ & -> & _)]; done.
Qed.

Lemma handled_is_forever_witness :
  let sys := run boot [Cycle [fresh_trigger E1]] in
  let later := [Resume 0 w_failure; Resume 0 w_failure; Resume 0 w_failure;
                Cycle [fresh_trigger E1]] in
  E1 ∈ handled_events (sys_state sys)
  ∧ E1 ∈ handled_events (sys_state (run sys later)).
Proof.
  intros sys later.
  assert (H : E1 ∈ handled_events (sys_state sys))
    by (apply (bool_decide_eq_true_1 (E1 ∈ _)); vm_compute; reflexivity).
  split; [exact H|]. exact (handled_is_forever sys later E1 H).
Defined.

Lemma step_tokens sys a :
  total_tokens_used (sys_state sys) ≤ total_tokens_used (sys_state (step sys a)).
Proof.
  destruct a as [triggers|i w]; simpl.
  - destruct (process_queue_effect triggers (sys_state sys)) as [_ _ _ Ht _ _ _].
    rewrite Ht. lia.
  - destruct (sys_tasks sys !! i) as [tk|]; [|lia].
    destruct (run_ai_pipeline_resumption (sys_state sys) tk w)
      as [st1 _ Ht -> _ _ _ | _ -> | st1 r _ _ Ht -> | _ ->]; simpl; lia.
Qed.

(** X5: the token counter never decreases, whatever cycles and tasks
    run. *)
Theorem tokens_never_decrease sys later :
  total_tokens_used (sys_state sys)
  ≤ total_tokens_used (sys_state (run sys later)).
Proof.
  revert sys. induction later as [|a later IH]; intros sys; [simpl; lia|].
  change (run sys (a :: later)) with (run (step sys a) later).
  pose proof (step_tokens sys a). pose proof (IH (step sys a)). lia.
Qed.

(** ** Triggers seen again *)

Lemma known_grows st q e : queue_effect st q → known st e → known (q_state q) e.
Proof.
  intros [_ Hh Hc _ _ _ _] [He|He]; [left; by apply Hh|right; by rewrite Hc].
Qed.

Lemma skipped_true st eid :
  skipped st eid = true → truthy eid = true →
  processing_events st ⊆ handled_events st → known st eid.
Proof.
  unfold skipped. intros Hs Ht Hsub. rewrite Ht in Hs. simpl in Hs.
  apply orb_true_iff in Hs as [[Hs|Hs]%orb_true_iff|Hs];
    apply bool_decide_eq_true in Hs; [left; by apply Hsub|by left|by right].
Qed.

Lemma process_trigger_known st t eid :
  processing_events st ⊆ handled_events st →
  q_raised (process_trigger st t) = None →
  eventid (event_of t) = Some eid → truthy eid = true →
  known (q_state (process_trigger st t)) eid.
Proof.
  intros Hsub Hr He Ht. revert Hr. unfold process_trigger.
  rewrite (event_id_object t eid He), He.
  destruct (skipped st eid) eqn:Hsk; [intros _; by apply skipped_true|].
  destruct (first_marked _) as [msg|].
  - intros _. destruct (parse_ack_total msg) as [r ->]. right. simpl.
    rewrite lookup_insert_eq. by eexists.
  - destruct (task_of eid t); [|done]. intros _. left. simpl. set_solver.
Qed.

Lemma process_queue_known triggers : ∀ st t eid,
  processing_events st ⊆ handled_events st →
  q_raised (process_queue st triggers) = None →
  t ∈ triggers → eventid (event_of t) = Some eid → truthy eid = true →
  known (q_state (process_queue st triggers)) eid.
Proof.
  induction triggers as [|t0 rest IH]; intros st t eid Hsub Hr Hin He Ht.
  - by apply elem_of_nil in Hin.
  - simpl in *.
    destruct (process_trigger_flight st t0) as [_ Hsub'].
    destruct (q_raised (process_trigger st t0)) eqn:Hr0; [by rewrite Hr0 in Hr|].
    simpl in *. apply elem_of_cons in Hin as [->|Hin].
    + apply (known_grows (q_state (process_trigger st t0))); [apply process_queue_effect|].
      by apply process_trigger_known.
    + apply (IH _ t); auto.
Qed.

Lemma run_keeps_known later : ∀ sys e,
  known (sys_state sys) e → known (sys_state (run sys later)) e.
Proof.
  induction later as [|a later IH]; intros sys e Hk; [done|].
  change (run sys (a :: later)) with (run (step sys a) later).
  by apply IH, step_keeps_known.
Qed.

Lemma process_queue_all_known triggers st :
  Forall (fun t => ∀ eid, eventid (event_of t) = Some eid →
                   truthy eid = true → known st eid) triggers →
  process_queue st triggers
  = {| q_state := st; q_tasks := []; q_raised := event_error triggers |}.
Proof.
  induction 1 as [|t rest Ht _ IH]; [done|]. unfold event_error. simpl.
  destruct (no_object t) eqn:Ho; [by rewrite process_trigger_no_object|].
  assert (process_trigger st t = not_called st) as ->; [|simpl; by rewrite IH].
  destruct (eventid (event_of t)) as [eid|] eqn:He.
  - destruct (truthy eid) eqn:Htr.
    + by apply (known_event_is_skipped st t eid He), Ht.
    + apply missing_event_id_is_skipped; [done|]. right. rewrite He. by destruct eid.
  - apply missing_event_id_is_skipped; [done|]. by left.
Qed.

(** X6: once a cycle has gone through a batch without an exception,
    the triggers of the same events cause no work at any later time,
    whatever acknowledgements or fields they then carry: the state is
    left as it is and nothing is dispatched; nothing is raised either,
    unless one of them has a ['lastEvent'] that is no object, which
    raises [AttributeError]. *)
Theorem seen_triggers_cause_no_work trace triggers later again :
  q_raised (process_queue (sys_state (run boot trace)) triggers) = None →
  Forall (fun t' => has_event_id t' = true →
                    ∃ t, t ∈ triggers
                         ∧ eventid (event_of t') = eventid (event_of t)) again →
  process_queue (sys_state (run boot (trace ++ Cycle triggers :: later))) again
  = {| q_state := sys_state (run boot (trace ++ Cycle triggers :: later));
       q_tasks := []; q_raised := event_error again |}.
Proof.
  intros Hr Hall. rewrite run_app.
  change (run (run boot trace) (Cycle triggers :: later))
    with (run (step (run boot trace) (Cycle triggers)) later).
  destruct (invariants_reachable trace) as (_ & [_ Hsub _ _ _] & _).
  apply process_queue_all_known. eapply Forall_impl; [exact Hall|].
  intros t' Ht' eid He Htr. simpl in Ht'.
  destruct Ht' as (t & Hin & Heq).
  { unfold has_event_id. by rewrite He. }
  apply run_keeps_known. simpl.
  apply (process_queue_known triggers _ t); try done. by rewrite <- Heq.
Qed.

Lemma seen_triggers_cause_no_work_witness :
  let triggers := [fresh_trigger E1; acked_trigger E2 "IA: cpu spike | CMD: top"] in
  let again := [acked_trigger E1 "IA: x | CMD: y"; hostless_trigger E2] in
  let sys := run boot ([] ++ Cycle triggers :: [Resume 0 w_answer]) in
  q_raised (process_queue (sys_state (run boot [])) triggers) = None
  ∧ process_queue (sys_state sys) again = not_called (sys_state sys).
Proof.
  intros triggers again sys.
  assert (Hr : q_raised (process_queue (sys_state (run boot [])) triggers) = None)
    by (vm_compute; reflexivity).
  split; [exact Hr|].
  apply (seen_triggers_cause_no_work [] triggers [Resume 0 w_answer] again Hr).
  repeat constructor; intros _.
  - exists (fresh_trigger E1). split; [|reflexivity].
    apply list_elem_of_In. left. reflexivity.
  - exists (acked_trigger E2 "IA: cpu spike | CMD: top"). split; [|reflexivity].
    apply list_elem_of_In. right. left. reflexivity.
Defined.

(** ** What is dispatched *)

Lemma task_of_fields eid t tk :
  task_of eid t = Ok tk →
  t_eid tk = eid ∧ t_phase tk = Created
  ∧ description t = Some (t_problem tk)
  ∧ (∃ h hs, hosts t = Some (h :: hs) ∧ host_name h = Some (t_host tk))
  ∧ priority t = Some (t_severity tk)
  ∧ t_tags tk = default [] (tags t).
Proof.
  unfold task_of.
  destruct (description t) as [d|]; [|done].
  destruct (hosts t) as [[|h hs]|]; try done. simpl.
  destruct (host_name h) as [n|] eqn:Hn; [|done].
  destruct (priority t) as [p|]; [|done].
  simpl. intros [= <-]. simpl.
  split; [done|]. split; [done|]. split; [done|]. split; [by exists h, hs|done].
Qed.

Lemma process_trigger_task st t tk :
  tk ∈ q_tasks (process_trigger st t) →
  task_of (t_eid tk) t = Ok tk
  ∧ eventid (event_of t) = Some (t_eid tk)
  ∧ skipped st (t_eid tk) = false
  ∧ first_marked (default [] (acknowledges (event_of t))) = None.
Proof.
  unfold process_trigger. destruct (no_object t); [by intros ?%elem_of_nil|].
  destruct (eventid (event_of t)) as [eid|]; [|by intros ?%elem_of_nil].
  destruct (skipped st eid) eqn:Hsk; [by intros ?%elem_of_nil|].
  destruct (first_marked _) as [msg|]; [by intros ?%elem_of_nil|].
  destruct (task_of eid t) as [tk'|] eqn:Htk; [|by intros ?%elem_of_nil].
  intros ->%list_elem_of_singleton.
  destruct (task_of_eid _ _ _ Htk) as [-> _]. done.
Qed.

(** X7: every task that [process_queue] creates comes from a trigger of
    the batch whose event has a non-empty identifier and no
    acknowledgement with the marker; the task carries the description,
    the name of the first host, the priority and the tags of that
    trigger, and has not started. *)
Theorem dispatched_task_comes_from_its_trigger st triggers tk :
  tk ∈ q_tasks (process_queue st triggers) →
  ∃ t, t ∈ triggers
       ∧ eventid (event_of t) = Some (t_eid tk)
       ∧ truthy (t_eid tk) = true
       ∧ first_marked (default [] (acknowledges (event_of t))) = None
       ∧ description t = Some (t_problem tk)
       ∧ (∃ h hs, hosts t = Some (h :: hs) ∧ host_name h = Some (t_host tk))
       ∧ priority t = Some (t_severity tk)
       ∧ t_tags tk = default [] (tags t)
       ∧ t_phase tk = Created.
Proof.
  revert st. induction triggers as [|t rest IH]; intros st; simpl.
  - by intros ?%elem_of_nil.
  - intros Htk.
    assert (tk ∈ q_tasks (process_trigger st t)
            ∨ ∃ st', tk ∈ q_tasks (process_queue st' rest)) as [H|[st' H]].
    { destruct (q_raised (process_trigger st t)); [by left|].
      simpl in Htk. apply elem_of_app in Htk as [?|?]; [by left|right; by eexists]. }
    + apply process_trigger_task in H as (Hof & He & Hsk & Hm).
      apply skipped_false in Hsk as (Htr & _).
      apply task_of_fields in Hof as (_ & Hph & Hd & Hh & Hp & Htg).
      exists t. repeat split; try done. by left.
    + destruct (IH st' H) as (t' & Hin & Hrest). exists t'. split; [by right|done].
Qed.

Lemma dispatched_task_comes_from_its_trigger_witness :
  sample_task E1 Created ∈ q_tasks (process_queue initial_state [fresh_trigger E1])
  ∧ ∃ t, t ∈ [fresh_trigger E1] ∧ eventid (event_of t) = Some E1.
Proof.
  assert (H : sample_task E1 Created
              ∈ q_tasks (process_queue initial_state [fresh_trigger E1]))
    by (apply list_elem_of_In; left; vm_compute; reflexivity).
  split; [exact H|].
  destruct (dispatched_task_comes_from_its_trigger initial_state
              [fresh_trigger E1] (sample_task E1 Created) H) as (t & Hin & He & _).
  exists t. split; [exact Hin|exact He].
Defined.

Lemma dispatchable_task_of eid t : dispatchable t → ∃ tk, task_of eid t = Ok tk.
Proof.
  intros ([d Hd] & (h & hs & Hh & [n Hn]) & [p Hp]). unfold task_of.
  rewrite Hd, Hh. simpl. rewrite Hn, Hp. by eexists.
Qed.

(** X8: on a batch in which every trigger has a description, a first
    host with a name, and a priority, [process_queue] raises in one case
    only: a trigger whose ['lastEvent'] is no object raises
    [AttributeError] at [ev.get]. Without such a trigger nothing is
    raised, whatever other keys are missing. *)
Theorem dispatchable_batch_raises_only_at_the_event st triggers :
  Forall dispatchable triggers →
  q_raised (process_queue st triggers) = event_error triggers.
Proof.
  intros Hall. revert st. induction Hall as [|t rest Ht _ IH]; intros st; [done|].
  unfold event_error. simpl.
  destruct (no_object t) eqn:Ho; [by rewrite process_trigger_no_object|].
  assert (q_raised (process_trigger st t) = None) as ->; [|apply IH].
  unfold process_trigger. rewrite Ho.
  destruct (eventid (event_of t)) as [eid|]; [|done].
  destruct (skipped st eid); [done|]. destruct (first_marked _); [done|].
  by destruct (dispatchable_task_of eid t Ht) as [tk ->].
Qed.

Lemma dispatchable_batch_raises_only_at_the_event_witness :
  Forall dispatchable [fresh_trigger E1; eventless_trigger; fresh_trigger E2]
  ∧ q_raised (process_queue initial_state
                [fresh_trigger E1; eventless_trigger; fresh_trigger E2])
    = Some AttributeError
  ∧ q_raised (process_queue initial_state [fresh_trigger E1; tagged_trigger])
    = None.
Proof.
  assert (Hd : ∀ eid acks tgs, dispatchable (sample_trigger eid acks [web01] tgs)).
  { intros eid acks tgs. split; [by eexists|]. split; [|by eexists].
    exists web01, []. split; [reflexivity|by eexists]. }
  assert (He : dispatchable eventless_trigger).
  { split; [by eexists|]. split; [|by eexists].
    exists web01, []. split; [reflexivity|by eexists]. }
  assert (H : Forall dispatchable
                [fresh_trigger E1; eventless_trigger; fresh_trigger E2])
    by (apply Forall_cons_2; [apply Hd|];
        apply Forall_cons_2; [exact He|];
        apply Forall_cons_2; [apply Hd|apply Forall_nil_2]).
  assert (H' : Forall dispatchable [fresh_trigger E1; tagged_trigger])
    by (apply Forall_cons_2; [apply Hd|];
        apply Forall_cons_2; [apply Hd|apply Forall_nil_2]).
  split; [exact H|]. split.
  - exact (dispatchable_batch_raises_only_at_the_event initial_state _ H).
  - exact (dispatchable_batch_raises_only_at_the_event initial_state _ H').
Defined.

Example eventless_trigger_raises :
  let q := process_queue initial_state
             [fresh_trigger E1; eventless_trigger; fresh_trigger E2] in
  q_raised q = Some AttributeError
  ∧ q_tasks q = [sample_task E1 Created]
  ∧ handled_events (q_state q) = {[E1]}
  ∧ format_dashboard noon initial_state [eventless_trigger] = Raise AttributeError.
Proof.
  split; [vm_compute; reflexivity|]. split; [vm_compute; reflexivity|].
  split; [|vm_compute; reflexivity].
  simpl. set_solver.
Qed.

(** X9: a trigger whose event object is missing or has no event
    identifier, or an empty one, is transparent: [process_queue] does to
    a batch what it does to the batch without these triggers. A trigger
    whose ['lastEvent'] is no object is not among them: it stays in the
    batch, where it raises. *)
Theorem triggers_without_event_id_are_transparent st triggers :
  process_queue st triggers
  = process_queue st
      (filter (fun t => has_event_id t || no_object t = true) triggers).
Proof.
  revert st. induction triggers as [|t rest IH]; intros st; [done|].
  destruct (has_event_id t || no_object t) eqn:Hid.
  - rewrite filter_cons_True by done. simpl.
    destruct (q_raised (process_trigger st t)); [done|]. by rewrite IH.
  - rewrite filter_cons_False by congruence.
    apply orb_false_iff in Hid as [Hid Ho].
    rewrite missing_event_id_leaves_the_rest; [apply IH|done|].
    unfold has_event_id in Hid.
    destruct (eventid (event_of t)) as [[|c eid]|]; [by right|done|by left].
Qed.

(** ** Acknowledgements *)

Lemma zabbix_msg_marked s a : Str.contains MARKER (zabbix_msg s a) = true.
Proof. reflexivity. Qed.

Lemma first_marked_some acks a :
  a ∈ acks → Str.contains MARKER (default [] (ack_message a)) = true →
  is_Some (first_marked acks).
Proof.
  induction acks as [|b acks IH]; [by intros ?%elem_of_nil|].
  intros [->|Hin]%elem_of_cons Hm; cbn [first_marked].
  - rewrite Hm. by eexists.
  - destruct (Str.contains MARKER (default [] (ack_message b)));
      [by eexists|by apply IH].
Qed.

(** X10: an event that carries, among its acknowledgements, a comment
    this program wrote is never dispatched when it is first seen,
    whatever summary and action the comment holds: a result is stored,
    both sets stay as they are and nothing is raised. *)
Theorem own_comment_is_recognised st t eid s a :
  eventid (event_of t) = Some eid → skipped st eid = false →
  {| ack_message := Some (zabbix_msg s a) |}
    ∈ default [] (acknowledges (event_of t)) →
  q_tasks (process_trigger st t) = []
  ∧ q_raised (process_trigger st t) = None
  ∧ is_Some (ai_memory_cache (q_state (process_trigger st t)) !! eid)
  ∧ processing_events (q_state (process_trigger st t)) = processing_events st
  ∧ handled_events (q_state (process_trigger st t)) = handled_events st.
Proof.
  intros He Hsk Hin.
  destruct (first_marked_some _ _ Hin (zabbix_msg_marked s a)) as [msg Hm].
  rewrite (process_trigger_recovers st t eid msg) by done. simpl.
  repeat split; try done. rewrite lookup_insert_eq. by eexists.
Qed.

Lemma own_comment_is_recognised_witness :
  let t := sample_trigger E2 [py "noted"; zabbix_msg (py " | CMD: ") (py "IA:")]
             [] [] in
  eventid (event_of t) = Some E2
  ∧ skipped initial_state E2 = false
  ∧ {| ack_message := Some (zabbix_msg (py " | CMD: ") (py "IA:")) |}
      ∈ default [] (acknowledges (event_of t))
  ∧ q_tasks (process_trigger initial_state t) = [].
Proof.
  intros t.
  assert (Hin : {| ack_message := Some (zabbix_msg (py " | CMD: ") (py "IA:")) |}
                ∈ default [] (acknowledges (event_of t)))
    by (apply list_elem_of_In; right; left; reflexivity).
  split; [reflexivity|]. split; [vm_compute; reflexivity|]. split; [exact Hin|].
  apply (own_comment_is_recognised initial_state t E2 (py " | CMD: ") (py "IA:"));
    [reflexivity | vm_compute; reflexivity | exact Hin].
Defined.

Lemma first_marked_earliest pre a post msg :
  Forall (fun b => Str.contains MARKER (default [] (ack_message b)) = false) pre →
  ack_message a = Some msg → Str.contains MARKER msg = true →
  first_marked (pre ++ a :: post) = Some msg.
Proof.
  intros Hpre Ha Hm. induction Hpre as [|b pre Hb _ IH]; cbn [first_marked app].
  - rewrite Ha. change (default [] (Some msg)) with msg. by rewrite Hm.
  - by rewrite Hb.
Qed.

(** X11: of the acknowledgements of an event, the recovery branch uses
    the earliest one whose message contains the marker; those before it
    (without a message, or without the marker) and all those after it
    are not looked at. *)
Theorem earliest_marked_acknowledgement_wins st t eid pre a post msg :
  eventid (event_of t) = Some eid → skipped st eid = false →
  acknowledges (event_of t) = Some (pre ++ a :: post) →
  Forall (fun b => Str.contains MARKER (default [] (ack_message b)) = false) pre →
  ack_message a = Some msg → Str.contains MARKER msg = true →
  ai_memory_cache (q_state (process_trigger st t)) !! eid
  = Some (marker_fields msg).
Proof.
  intros He Hsk Hacks Hpre Ha Hm.
  rewrite (process_trigger_recovers st t eid msg); [simpl; apply lookup_insert_eq|done|done|].
  rewrite Hacks. by apply first_marked_earliest.
Qed.

Lemma earliest_marked_acknowledgement_wins_witness :
  let a := {| ack_message := Some (py "IA: first | CMD: one") |} in
  let pre := [{| ack_message := None |}; {| ack_message := Some (py "seen") |}] in
  let post := [{| ack_message := Some (py "IA: second | CMD: two") |}] in
  let t := {| triggerid := None; description := None; priority := None;
              lastchange := None; hosts := None;
              lastEvent :=
                Some (EventObject
                        {| eventid := Some E1;
                           acknowledges := Some (pre ++ a :: post) |});
              tags := None |} in
  eventid (event_of t) = Some E1
  ∧ skipped initial_state E1 = false
  ∧ acknowledges (event_of t) = Some (pre ++ a :: post)
  ∧ Forall (fun b => Str.contains MARKER (default [] (ack_message b)) = false) pre
  ∧ ack_message a = Some (py "IA: first | CMD: one")
  ∧ Str.contains MARKER (py "IA: first | CMD: one") = true
  ∧ ai_memory_cache (q_state (process_trigger initial_state t)) !! E1
    = Some (marker_fields (py "IA: first | CMD: one")).
Proof.
  intros a pre post t.
  assert (Hpre : Forall (fun b => Str.contains MARKER (default [] (ack_message b))
                                  = false) pre)
    by (repeat constructor).
  split; [reflexivity|]. split; [vm_compute; reflexivity|]. split; [reflexivity|].
  split; [exact Hpre|]. split; [reflexivity|]. split; [reflexivity|].
  apply (earliest_marked_acknowledgement_wins initial_state t E1 pre a post
           (py "IA: first | CMD: one"));
    [reflexivity | vm_compute; reflexivity | reflexivity | exact Hpre
    | reflexivity | reflexivity].
Defined.

(** ** The enrichment task *)

(** X12: an enrichment task returns after at most four resumptions,
    whatever its external calls do or raise, and when it has returned
    its event is not in the in-flight set. *)
Theorem enrichment_task_always_returns st tk ws :
  (4 ≤ length ws)%nat →
  ∃ st', drive st tk ws = (st', None) ∧ t_eid tk ∉ processing_events st'.
Proof. intros Hlen. apply drive_returns. lia. Qed.

Lemma enrichment_task_always_returns_witness :
  let w := {| ai := ApiReturns None JsonOther; post_raises := true;
              notify_raises := true |} in
  (4 ≤ length [w; w; w; w])%nat
  ∧ ∃ st', drive initial_state (sample_task E1 Created) [w; w; w; w] = (st', None)
           ∧ E1 ∉ processing_events st'.
Proof.
  intros w.
  assert (H : (4 ≤ length [w; w; w; w])%nat) by (simpl; lia).
  split; [exact H|].
  exact (enrichment_task_always_returns initial_state (sample_task E1 Created)
           [w; w; w; w] H).
Defined.

(** X13: a resumption of the task of one event leaves every other event
    as it was, in the in-flight set and in the result map, and it never
    touches the handled set, whether the task succeeds or fails. *)
Theorem task_touches_only_its_event st tk w e :
  e ≠ t_eid tk →
  (e ∈ processing_events (p_state (run_ai_pipeline st tk w))
   ↔ e ∈ processing_events st)
  ∧ ai_memory_cache (p_state (run_ai_pipeline st tk w)) !! e
    = ai_memory_cache st !! e
  ∧ handled_events (p_state (run_ai_pipeline st tk w)) = handled_events st.
Proof.
  intros Hne.
  destruct (run_ai_pipeline_resumption st tk w)
    as [st1 (Hs1 & Hs2 & Hs3) _ -> _ _ _ | _ -> | st1 r _ (Hs1 & Hs2 & Hs3) _ ->
       | _ ->]; simpl; rewrite ?Hs1, ?Hs2, ?Hs3; try done.
  - split; [set_solver|done].
  - by rewrite lookup_insert_ne.
Qed.

Lemma task_touches_only_its_event_witness :
  let st := q_state (process_queue initial_state
                       [fresh_trigger E1; fresh_trigger E2]) in
  E2 ≠ t_eid (sample_task E1 AwaitAI)
  ∧ (E2 ∈ processing_events
            (p_state (run_ai_pipeline st (sample_task E1 AwaitAI) w_failure))
     ↔ E2 ∈ processing_events st).
Proof.
  intros st.
  assert (H : E2 ≠ t_eid (sample_task E1 AwaitAI)) by discriminate.
  split; [exact H|].
  exact (proj1 (task_touches_only_its_event st (sample_task E1 AwaitAI)
                  w_failure E2 H)).
Defined.

(** ** Trimmed fields *)

Section Trimmed.

Import Str.

Lemma rstrip_idem s : rstrip (rstrip s) = rstrip s.
Proof.
  induction s as [|c s IH]; [done|]. cbn [rstrip].
  destruct (rstrip s) as [|d r] eqn:Hr.
  - destruct (isspace c) eqn:Hc; [done|]. cbn [rstrip]. by rewrite Hc.
  - change (rstrip (c :: d :: r))
      with (match rstrip (d :: r) with
            | [] => if isspace c then [] else [c]
            | x :: y => c :: x :: y
            end).
    by rewrite IH.
Qed.

Lemma rstrip_keeps_head c s :
  isspace c = false → ∃ r, rstrip (c :: s) = c :: r.
Proof.
  intros Hc. cbn [rstrip]. destruct (rstrip s) as [|d r]; [|by eexists].
  rewrite Hc. by eexists.
Qed.

Lemma lstrip_head s :
  lstrip s = [] ∨ ∃ c r, lstrip s = c :: r ∧ isspace c = false.
Proof.
  induction s as [|c s IH]; [by left|]. cbn [lstrip].
  destruct (isspace c) eqn:Hc; [done|]. right. by exists c, s.
Qed.

Lemma strip_idem s : strip (strip s) = strip s.
Proof.
  unfold strip. destruct (lstrip_head s) as [->|(c & r & -> & Hc)]; [done|].
  destruct (rstrip_keeps_head c r Hc) as [r' Hr]. rewrite Hr.
  cbn [lstrip]. rewrite Hc, <- Hr. apply rstrip_idem.
Qed.

End Trimmed.

(** X14: what the recovery branch stores never starts or ends with
    whitespace, whatever the acknowledgement text is. *)
Theorem recovered_fields_are_trimmed msg :
  Str.strip (summary (marker_fields msg)) = summary (marker_fields msg)
  ∧ Str.strip (action (marker_fields msg)) = action (marker_fields msg).
Proof.
  unfold marker_fields. destruct (cut SEPARATOR msg) as [before [after|]]; simpl;
    (split; [apply strip_idem|]); [apply strip_idem|reflexivity].
Qed.

(** ** Tags *)

Lemma tag_text_complete sep tg : (∃ x, tag_text sep tg = Ok x) ↔ complete_tag tg.
Proof.
  unfold tag_text, complete_tag.
  destruct (tag_value tg) as [v|], (tag_tag tg) as [k|]; simpl.
  - split; [intros _; split; by eexists|intros _; by eexists].
  - split; [by intros [x [=]]|by intros [[? [=]] _]].
  - split; [by intros [x [=]]|by intros [_ [? [=]]]].
  - split; [by intros [x [=]]|by intros [_ [? [=]]]].
Qed.

Lemma hashtag_complete tg : (∃ x, hashtag tg = Ok x) ↔ complete_tag tg.
Proof.
  unfold hashtag, complete_tag.
  destruct (tag_value tg) as [v|], (tag_tag tg) as [k|]; simpl.
  - split; [intros _; split; by eexists|intros _; by eexists].
  - split; [by intros [x [=]]|by intros [[? [=]] _]].
  - split; [by intros [x [=]]|by intros [_ [? [=]]]].
  - split; [by intros [x [=]]|by intros [_ [? [=]]]].
Qed.

Lemma comprehension_succeeds {A B} (f : A -> res B) l :
  (∃ bs, comprehension f l = Ok bs) ↔ Forall (fun a => ∃ b, f a = Ok b) l.
Proof.
  split; [|apply comprehension_total].
  intros [bs Hbs]. apply comprehension_ok in Hbs.
  induction Hbs; constructor; [by eexists|done].
Qed.

Lemma format_tags_text_succeeds tags :
  (∃ ctx, format_tags_text tags = Ok ctx) ↔ Forall complete_tag (take 4 tags).
Proof.
  unfold format_tags_text. destruct tags as [|tg tags].
  - split; [constructor|by eexists].
  - rewrite <- (Forall_iff _ _ _ (tag_text_complete (py ":"))).
    rewrite <- comprehension_succeeds.
    destruct (comprehension _ _) as [parts|]; simpl; split;
      try (by eexists); by intros [? [=]].
Qed.

(** X15: for the tags of a trigger, the prompt context of the
    enrichment and the tag texts of the snapshot are built, or raise,
    together: both read the first four tags only, and what they need is
    that each of these has its two keys. *)
Theorem prompt_and_snapshot_tags_agree t :
  ((∃ ctx, format_tags_text (default [] (tags t)) = Ok ctx)
   ↔ ∃ texts, frontend_tags t = Ok texts)
  ∧ ((∃ texts, frontend_tags t = Ok texts)
     ↔ Forall complete_tag (take 4 (default [] (tags t)))).
Proof.
  unfold frontend_tags.
  rewrite format_tags_text_succeeds, comprehension_succeeds.
  by rewrite (Forall_iff _ _ _ (tag_text_complete (py ": "))).
Qed.

(** X16: the notification of a task whose tags passed
    [format_tags_text] cannot raise: its tag list reads the first three
    tags, which are among the four already read. *)
Theorem notification_cannot_raise upper bot_token chat_id tk r ctx :
  format_tags_text (t_tags tk) = Ok ctx →
  ∃ sent, notify upper bot_token chat_id tk r = Ok sent.
Proof.
  intros Hctx. unfold notify, send_telegram_alert.
  destruct (negb (configured bot_token) || negb (configured chat_id));
    [by eexists|].
  assert (Hfour : Forall complete_tag (take 4 (t_tags tk)))
    by (apply format_tags_text_succeeds; by eexists).
  assert (Hthree : ∃ tl, comprehension hashtag (take 3 (t_tags tk)) = Ok tl).
  { apply comprehension_succeeds.
    rewrite (Forall_iff _ _ _ hashtag_complete).
    replace (take 3 (t_tags tk)) with (take 3 (take 4 (t_tags tk)))
      by (rewrite take_take; f_equal).
    by apply Forall_take. }
  destruct Hthree as [tl ->]. simpl. by eexists.
Qed.

Lemma notification_cannot_raise_witness :
  let tk := {| t_eid := E1; t_problem := py "Disk space is low";
               t_host := py "web01"; t_severity := py "5";
               t_tags := default [] (tags tagged_trigger); t_phase := AwaitNotify |} in
  let r := {| summary := py "disk full"; action := py "df -h" |} in
  (∃ ctx, format_tags_text (t_tags tk) = Ok ctx)
  ∧ ∃ sent, notify id (Some (py "bot")) (Some (py "chat")) tk r = Ok sent.
Proof.
  intros tk r.
  assert (H : format_tags_text (t_tags tk)
              = Ok (py "env:prod, app:db, scope, team:ops"))
    by reflexivity.
  split; [by eexists|].
  exact (notification_cannot_raise id (Some (py "bot")) (Some (py "chat")) tk r _ H).
Defined.

(** X17: the names that [sev_map] gives to the priorities ['1'] to
    ['5'] are all keys of [sev_icon]; the notification shows the default
    icon exactly for a priority outside this range, which [sev_map]
    names ['Erro']. *)
Theorem unknown_icon_only_for_unknown_priority p :
  sev_icon (sev_map p) = UNKNOWN_ICON
  ↔ ¬ (p = py "1" ∨ p = py "2" ∨ p = py "3" ∨ p = py "4" ∨ p = py "5").
Proof.
  unfold sev_map. repeat case_bool_decide; (split; [|intros Hn]);
    try discriminate; try (intros _; tauto); try (exfalso; tauto).
  reflexivity.
Qed.

(** ** Fetching *)

(** X18: when [fetch_data] returns a non-empty list, the backend
    answered without an error, the list is the one it answered with,
    [process_queue] has gone through all of it without an exception, and
    the token in use is kept. *)
Theorem fetch_data_returns_what_it_processed token st login reply :
  f_return (fetch_data token st login reply) ≠ [] →
  reply = ReplyData false (Some (f_return (fetch_data token st login reply)))
  ∧ f_queue (fetch_data token st login reply)
    = process_queue st (f_return (fetch_data token st login reply))
  ∧ q_raised (f_queue (fetch_data token st login reply)) = None
  ∧ configured (f_token (fetch_data token st login reply)) = true
  ∧ f_token (fetch_data token st login reply)
    = (if configured token then token else login).
Proof.
  unfold fetch_data.
  destruct (configured (if configured token then token else login)) eqn:Hc;
    simpl; [|done].
  destruct reply as [|[] result]; simpl; try done.
  destruct (q_raised (process_queue st (default [] result))) eqn:Hr; [done|].
  destruct result as [triggers|]; simpl; [|done]. by intros _.
Qed.

Lemma fetch_data_returns_what_it_processed_witness :
  let reply := ReplyData false (Some [fresh_trigger E1]) in
  f_return (fetch_data None initial_state (Some (py "tok")) reply) ≠ []
  ∧ f_token (fetch_data None initial_state (Some (py "tok")) reply)
    = Some (py "tok").
Proof.
  intros reply.
  assert (H : f_return (fetch_data None initial_state (Some (py "tok")) reply) ≠ [])
    by (vm_compute; discriminate).
  split; [exact H|].
  destruct (fetch_data_returns_what_it_processed None initial_state
              (Some (py "tok")) reply H) as (_ & _ & _ & _ & Ht).
  exact Ht.
Defined.

(** X19: an answer with an error from the backend makes [fetch_data]
    forget its token without touching the state; the next call logs in
    again and, with the new token, goes through the triggers it gets. *)
Theorem auth_error_forces_a_new_login token st login result st' login' triggers :
  configured token = true → configured login' = true →
  let first := fetch_data token st login (ReplyData true result) in
  let second := fetch_data (f_token first) st' login'
                  (ReplyData false (Some triggers)) in
  f_token first = None
  ∧ f_queue first = not_called st
  ∧ f_return first = []
  ∧ f_token second = login'
  ∧ f_queue second = process_queue st' triggers.
Proof.
  intros Ht Hl. unfold fetch_data. rewrite Ht. simpl. rewrite Ht. simpl.
  by rewrite Hl.
Qed.

Lemma auth_error_forces_a_new_login_witness :
  configured (Some (py "old")) = true
  ∧ configured (Some (py "new")) = true
  ∧ f_token (fetch_data
               (f_token (fetch_data (Some (py "old")) initial_state None
                           (ReplyData true None)))
               initial_state (Some (py "new"))
               (ReplyData false (Some [fresh_trigger E1])))
    = Some (py "new").
Proof.
  split; [reflexivity|]. split; [reflexivity|].
  apply (auth_error_forces_a_new_login (Some (py "old")) initial_state None None
           initial_state (Some (py "new")) [fresh_trigger E1]); reflexivity.
Defined.

(** ** The snapshot and its broadcast *)

Section Counts.

Variable strftime_HM : str -> res str.

Lemma dashboard_loop_counts st triggers : ∀ sts formatted sts' out,
  dashboard_loop strftime_HM st triggers sts formatted = Ok (sts', out) →
  s_total sts' = s_total sts + N.of_nat (length triggers)
  ∧ s_critical sts'
    = s_critical sts + N.of_nat (length (filter (fun t => critical_trigger t = true)
                                           triggers))
  ∧ s_tokens sts' = s_tokens sts
  ∧ length out = (length formatted + length triggers)%nat.
Proof.
  induction triggers as [|t rest IH]; intros sts formatted sts' out; simpl.
  - intros [= <- <-]. repeat split; lia.
  - destruct (priority t) as [p|] eqn:Hp; [|done]. simpl.
    destruct (format_entry strftime_HM st t) as [e|]; [|done]. simpl.
    intros (Ht & Hc & Hk & Hl)%IH. simpl in *. rewrite length_app in Hl. simpl in Hl.
    assert (Hcrit : critical_trigger t = is_critical p)
      by (unfold critical_trigger; by rewrite Hp).
    destruct (is_critical p).
    + rewrite filter_cons_True by done. simpl. repeat split; lia.
    + rewrite filter_cons_False by congruence. repeat split; lia.
Qed.

Lemma dashboard_loop_reads st triggers : ∀ sts formatted out,
  dashboard_loop strftime_HM st triggers sts formatted = Ok out →
  Forall (fun t => is_Some (priority t) ∧ is_Some (description t)
                   ∧ is_Some (hosts t) ∧ is_Some (lastchange t)) triggers.
Proof.
  induction triggers as [|t rest IH]; intros sts formatted out; simpl;
    [constructor|].
  destruct (priority t) as [p|] eqn:Hp; [|done]. simpl.
  destruct (format_entry strftime_HM st t) as [e|] eqn:He; [|done]. simpl.
  intros Hrest%IH. constructor; [|done]. clear Hrest IH.
  revert He. unfold format_entry. rewrite Hp.
  destruct (no_object t); [done|]. simpl.
  destruct (frontend_tags t); [|done]. simpl.
  destruct (match eventid (event_of t) with
            | Some e0 => if truthy e0 then Ok e0 else getitem (triggerid t)
            | None => getitem (triggerid t)
            end); [|done]. simpl.
  destruct (hosts t) as [hs|]; [|done]. simpl.
  destruct (match hs with [] => Ok (py "?") | h0 :: _ => getitem (host_name h0) end);
    [|done]. simpl.
  destruct (description t); simpl; [|done].
  destruct (lastchange t); simpl; [|done].
  intros _. repeat split; by eexists.
Qed.

End Counts.

(** X20: in every snapshot that [format_dashboard] builds, [total] is
    the number of triggers, [critical] the number of those whose
    priority is ['4'] or ['5'], [tokens] the token counter of the state,
    and there is one entry for each trigger. *)
Theorem snapshot_counts strftime_HM st triggers snap :
  format_dashboard strftime_HM st triggers = Ok (Some snap) →
  s_total (snap_stats snap) = N.of_nat (length triggers)
  ∧ s_critical (snap_stats snap)
    = N.of_nat (length (filter (fun t => critical_trigger t = true) triggers))
  ∧ s_tokens (snap_stats snap) = total_tokens_used st
  ∧ length (snap_data snap) = length triggers.
Proof.
  unfold format_dashboard. destruct triggers as [|t rest]; [done|].
  destruct (dashboard_loop _ _ _ _ _) as [[sts out]|] eqn:Hl; [|done]. simpl.
  intros [= <-]. apply dashboard_loop_counts in Hl as (Ht & Hc & Hk & Hn).
  simpl in *. repeat split; [lia|lia|done|done].
Qed.

Lemma snapshot_counts_witness :
  ∃ snap,
    format_dashboard noon initial_state
      [tagged_trigger; sample_trigger E2 [] [] []] = Ok (Some snap)
    ∧ s_total (snap_stats snap) = 2 ∧ s_critical (snap_stats snap) = 2.
Proof.
  eexists.
  assert (H : format_dashboard noon initial_state
                [tagged_trigger; sample_trigger E2 [] [] []] = Ok (Some _))
    by (vm_compute; reflexivity).
  split; [exact H|].
  destruct (snapshot_counts noon initial_state _ _ H) as (Ht & Hc & _).
  split; [exact Ht|exact Hc].
Defined.

(** X21: for a non-empty list of triggers that can be rendered, the
    iteration of [loop] sends one text, the JSON of the snapshot, to
    every registered connection; those whose send raises are dropped
    and the others stay, in their order. *)
Theorem publish_sends_one_snapshot strftime_HM json_dumps st raw send_raises active :
  raw ≠ [] → Forall (renderable strftime_HM) raw →
  ∃ snap,
    format_dashboard strftime_HM st raw = Ok (Some snap)
    ∧ pub_active (publish strftime_HM json_dumps st raw send_raises active)
      = filter (fun c => send_raises c (json_dumps snap) = false) active
    ∧ pub_delivered (publish strftime_HM json_dumps st raw send_raises active)
      = (fun c => (c, json_dumps snap))
          <$> filter (fun c => send_raises c (json_dumps snap) = false) active
    ∧ pub_logged (publish strftime_HM json_dumps st raw send_raises active) = false.
Proof.
  intros Hne Hall.
  destruct (format_dashboard_total strftime_HM st raw Hne Hall) as [snap Hs].
  exists snap. unfold publish. rewrite Hs, broadcast_filter. done.
Qed.

Lemma publish_sends_one_snapshot_witness :
  [tagged_trigger] ≠ []
  ∧ Forall (renderable noon) [tagged_trigger]
  ∧ ∃ snap, format_dashboard noon initial_state [tagged_trigger] = Ok (Some snap).
Proof.
  assert (Hne : [tagged_trigger] ≠ []) by discriminate.
  assert (Hall : Forall (renderable noon) [tagged_trigger]).
  { repeat constructor; try (by eexists).
    - exists (py "1700000000"). split; [reflexivity|by eexists].
    - exists [web01]. split; [reflexivity|by eexists]. }
  split; [exact Hne|]. split; [exact Hall|].
  destruct (publish_sends_one_snapshot noon (fun _ => py "{}") initial_state
              [tagged_trigger] (fun _ _ => false) [] Hne Hall) as (snap & Hs & _).
  exists snap. exact Hs.
Defined.

(** X22: one trigger without [priority], [description], [hosts] or
    [lastchange] in the list silences the whole iteration: nothing is
    sent to any connection, no connection is dropped, and the error is
    logged. *)
Theorem unrenderable_trigger_silences_the_cycle
    strftime_HM json_dumps st raw send_raises active t :
  t ∈ raw →
  priority t = None ∨ description t = None ∨ hosts t = None ∨ lastchange t = None →
  publish strftime_HM json_dumps st raw send_raises active
  = {| pub_active := active; pub_delivered := []; pub_logged := true |}.
Proof.
  intros Hin Hmiss. unfold publish.
  destruct (format_dashboard strftime_HM st raw) as [[snap|]|] eqn:Hf; [| |done].
  - exfalso. revert Hf. unfold format_dashboard.
    destruct raw as [|t0 rest]; [done|].
    destruct (dashboard_loop _ _ _ _ _) as [out|] eqn:Hl; [|done]. intros _.
    apply dashboard_loop_reads in Hl.
    pose proof (proj1 (Forall_forall _ _) Hl t Hin) as ([? Hp] & [? Hd] & [? Hh] & [? Hc]).
    destruct Hmiss as [H|[H|[H|H]]]; congruence.
  - exfalso. destruct raw; [by apply elem_of_nil in Hin|]. revert Hf.
    unfold format_dashboard. by destruct (dashboard_loop _ _ _ _ _).
Qed.

Lemma unrenderable_trigger_silences_the_cycle_witness :
  let bad := {| triggerid := Some (py "T2"); description := None;
                priority := Some (py "3"); lastchange := Some (py "0");
                hosts := Some [web01]; lastEvent := None; tags := None |} in
  bad ∈ [tagged_trigger; bad]
  ∧ description bad = None
  ∧ pub_delivered (publish noon (fun _ => py "{}") initial_state
                     [tagged_trigger; bad] (fun _ _ => false) [1; 2]%nat) = [].
Proof.
  intros bad.
  assert (Hin : bad ∈ [tagged_trigger; bad])
    by (apply list_elem_of_In; right; left; reflexivity).
  split; [exact Hin|]. split; [reflexivity|].
  rewrite (unrenderable_trigger_silences_the_cycle noon (fun _ => py "{}")
             initial_state [tagged_trigger; bad] (fun _ _ => false) [1; 2]%nat
             bad Hin (or_intror (or_introl eq_refl))).
  reflexivity.
Defined.

(** ** Connections *)

Section Connections.

Import ConnectionManager.

Lemma remove_first_perm ws active :
  ws ∈ active → active ≡ₚ ws :: remove_first ws active.
Proof.
  induction active as [|c active IH]; [by intros ?%elem_of_nil|].
  intros Hin. simpl. case_bool_decide as Hc; [by rewrite Hc|].
  apply elem_of_cons in Hin as [->|Hin]; [done|].
  rewrite (IH Hin) at 1. apply Permutation_swap.
Qed.

Lemma remove_first_absent ws active : ws ∉ active → remove_first ws active = active.
Proof.
  induction active as [|c active IH]; [done|]. intros Hn. simpl.
  rewrite bool_decide_eq_false_2 by set_solver. f_equal. apply IH. set_solver.
Qed.

End Connections.

(** X23: [disconnect] takes out one registration of the connection and
    nothing else: the list before is the list after with the connection
    added, up to order. *)
Theorem disconnect_removes_one ws active :
  ws ∈ active →
  active ≡ₚ ws :: ConnectionManager.disconnect ws active.
Proof.
  intros Hin. unfold ConnectionManager.disconnect.
  rewrite bool_decide_eq_true_2 by done. by apply remove_first_perm.
Qed.

Lemma disconnect_removes_one_witness :
  2%nat ∈ [1; 2; 3; 2]%nat
  ∧ [1; 2; 3; 2]%nat ≡ₚ 2%nat :: ConnectionManager.disconnect 2%nat [1; 2; 3; 2]%nat.
Proof.
  assert (H : 2%nat ∈ [1; 2; 3; 2]%nat)
    by (apply list_elem_of_In; right; left; reflexivity).
  split; [exact H|]. exact (disconnect_removes_one 2%nat [1; 2; 3; 2]%nat H).
Defined.

(** X24: after a broadcast, a second one over the connections that are
    left drops nobody and reaches all of them, as long as each
    connection fails for the second text if and only if it failed for
    the first. *)
Theorem broadcast_settles send_raises message message' active :
  (∀ c, c ∈ active → send_raises c message' = send_raises c message) →
  ConnectionManager.broadcast send_raises message'
    (ConnectionManager.broadcast send_raises message active).1
  = ((ConnectionManager.broadcast send_raises message active).1,
     (fun c => (c, message'))
       <$> (ConnectionManager.broadcast send_raises message active).1).
Proof.
  intros Hsame. rewrite !broadcast_filter. cbn [fst].
  assert (Hid : filter (fun c => send_raises c message' = false)
                  (filter (fun c => send_raises c message = false) active)
                = filter (fun c => send_raises c message = false) active).
  { induction active as [|c active IH]; [done|].
    destruct (send_raises c message) eqn:Hc.
    - rewrite (filter_cons_False _ c active) by congruence.
      apply IH. intros c' Hc'. apply Hsame. by right.
    - rewrite (filter_cons_True _ c active) by done.
      rewrite filter_cons_True by (rewrite Hsame; [done|by left]).
      f_equal. apply IH. intros c' Hc'. apply Hsame. by right. }
  by rewrite Hid.
Qed.

Lemma broadcast_settles_witness :
  let send_raises := fun (c : nat) (_ : str) => Nat.eqb c 2 in
  (∀ c, c ∈ [1; 2; 3]%nat →
        send_raises c (py "b") = send_raises c (py "a"))
  ∧ ConnectionManager.broadcast send_raises (py "b")
      (ConnectionManager.broadcast send_raises (py "a") [1; 2; 3]%nat).1
    = ([1; 3]%nat, [(1%nat, py "b"); (3%nat, py "b")]).
Proof.
  intros send_raises.
  assert (H : ∀ c, c ∈ [1; 2; 3]%nat →
                   send_raises c (py "b") = send_raises c (py "a"))
    by (intros c _; reflexivity).
  split; [exact H|].
  rewrite (broadcast_settles send_raises (py "a") (py "b") [1; 2; 3]%nat H).
  reflexivity.
Defined.

(** ** The routes *)

(** X25: after [POST /login], a client is let in by [GET /] and by the
    WebSocket route exactly when the form it submitted has a non-empty
    token that is the configured one, or its cookies were already
    accepted.  A form without the token, or with an empty one, lets
    nobody in, even when the configured token is the empty string; and
    without a configured token no submission lets anyone in. *)
Theorem login_grants_access_iff DASHBOARD_TOKEN field cookies :
  Routes.authorized
    (Routes.client_cookies (Routes.login DASHBOARD_TOKEN field) cookies) = true
  ↔ (∃ token, field = Some token ∧ truthy token = true
              ∧ DASHBOARD_TOKEN = Some token)
    ∨ Routes.authorized cookies = true.
Proof.
  unfold Routes.login, Routes.Form.
  destruct field as [token|]; [destruct (truthy token) eqn:Ht|]; simpl.
  - case_bool_decide as Hd; simpl.
    + unfold Routes.authorized at 1. rewrite lookup_insert_eq. simpl.
      split; [|done]. intros _. left. by exists token.
    + split; [by right|]. intros [(tok & [= <-] & _ & Heq)|H]; [|done].
      by rewrite Heq in Hd.
  - split; [by right|]. intros [(tok & [= <-] & Htok & _)|H]; [|done].
    by rewrite Htok in Ht.
  - split; [by right|]. by intros [(tok & [=] & _)|H].
Qed.

Example login_with_an_empty_token :
  Routes.login (Some []) (Some []) = Routes.RequestValidationError 422
  ∧ Routes.login (Some []) None = Routes.RequestValidationError 422
  ∧ Routes.login (Some (py "s3cret")) (Some (py "s3cret"))
    = Routes.RedirectResponse (py "/") 303
        (Routes.SetCookie Routes.ACCESS_TOKEN Routes.AUTHORIZED true).
Proof. repeat split. Qed.

(** X26: after [GET /logout], [GET /] sends the client back to the
    login page, whatever cookies it had. *)
Theorem logout_revokes_access cookies :
  Routes.dashboard (Routes.client_cookies Routes.logout cookies)
  = Routes.RedirectResponse (py "/login") 307 Routes.KeepCookies.
Proof.
  unfold Routes.dashboard, Routes.authorized, Routes.logout. simpl.
  by rewrite lookup_delete_eq.
Qed.

(** X27: the WebSocket route registers a connection exactly when the
    cookies of the request are accepted, refusing the others with code
    1008; and when the receive loop ends, the registrations are what
    they were before the connection came. *)
Theorem ws_session_leaves_no_trace cookies ws active :
  ws ∉ active →
  (ws ∈ (Routes.ws_open cookies ws active).1 ↔ Routes.authorized cookies = true)
  ∧ ((Routes.ws_open cookies ws active).2 = Some 1008
     ↔ Routes.authorized cookies = false)
  ∧ Routes.ws_closed ws (Routes.ws_open cookies ws active).1 = active.
Proof.
  intros Hn. unfold Routes.ws_open, Routes.ws_closed.
  destruct (Routes.authorized cookies); simpl.
  - split; [|split]; [| |].
    + split; [done|]. intros _. unfold ConnectionManager.connect.
      apply elem_of_app. right. by left.
    + split; discriminate.
    + unfold ConnectionManager.connect.
      rewrite <- (app_nil_r active) at 2.
      by apply disconnect_middle.
  - split; [|split]; [split; [done|discriminate]|done|].
    unfold ConnectionManager.disconnect. by rewrite bool_decide_eq_false_2.
Qed.

Lemma ws_session_leaves_no_trace_witness :
  let cookies : gmap str str := {[ Routes.ACCESS_TOKEN := Routes.AUTHORIZED ]} in
  (3%nat ∉ [1; 2]%nat)
  ∧ Routes.ws_closed 3%nat (Routes.ws_open cookies 3%nat [1; 2]%nat).1
    = [1; 2]%nat.
Proof.
  intros cookies.
  assert (H : 3%nat ∉ [1; 2]%nat).
  { intros Hin. apply list_elem_of_In in Hin. simpl in Hin.
    destruct Hin as [Hin|[Hin|[]]]; discriminate. }
  split; [exact H|].
  destruct (ws_session_leaves_no_trace cookies 3%nat [1; 2]%nat H) as (_ & _ & Hc).
  exact Hc.
Defined.
